(** * rio.c: the LinuxCNC HAL component of the RIO FPGA interface

    A shallow embedding of the three realtime functions of
    [Output/TinyFPGA-BX_BOB/LinuxCNC/Components/rio.c]:
    [update_freq] (command generation), [spi_write] (packet assembly and
    trigger) and [spi_read] (handshake and feedback decode), with the
    properties the specification states about them.

    Numbers.  [hal_float_t] and [double] values are exact rationals ([Q]):
    the rounding of double-precision operations, infinities and NaN are
    outside the model.  What the code keeps in a [float] is rounded to
    single precision by [float32]: the fields [freq], [old_scale],
    [scale_recip], [prev_cmd] and [cmd_d] of [data_t], the locals [pgain],
    [ff1gain] and [deadband] of [update_freq], the casts of [spi_read] and
    the quotient of [spi_write].  Division in [Q] is total ([x / 0 == 0])
    where C produces an infinity, so the places where such a quotient
    decides what the component does have a partial result: [fdiv] in
    [spi_write], [deadband_of] in [update_freq].  Fixed-width integers are
    [Z] with the wrap-around written out ([int32], [int64]).

    Of the start-up code the file also covers [rtapi_app_main] as far as it
    decides whether the component starts and in which modes, with
    [parse_ctrl_type], and the block of [rt_bcm2835_init] that reads the
    peripheral address range from the device tree.

    Layout.  [data_t] is a structure of arrays indexed by the joint number;
    here the [i]-th entries of those arrays (and of the static arrays [accum]
    and [old_count]) form the record [joint], and [data_t] holds the list of
    joints: [data->f[i]] reads as [f] of the [i]-th joint. *)

From Stdlib Require Import ZArith QArith Qabs Qround Qpower Qreduction.
From Stdlib Require Import Lqa Lia Bool Ascii.
From Stdlib Require String.
From stdpp Require Import list.

Local Open Scope Z_scope.
Local Open Scope Q_scope.

(** ** Arithmetic of the C code *)

(** [x < y], [x > y] and [x != y] on floating values. *)
Definition Qltb (x y : Q) : bool := negb (Qle_bool y x).
Definition Qgtb (x y : Q) : bool := Qltb y x.
Definition Qneb (x y : Q) : bool := negb (Qeq_bool x y).

(** [fabs]. *)
Definition fabs (x : Q) : Q := Qabs x.

(** Conversion of a floating value to an integer type drops the fraction
    (rounds toward zero). *)
Definition trunc (x : Q) : Z := Z.quot (Qnum x) (Zpos (Qden x)).

(** Two's complement reduction to [int32_t] and [int64_t]. *)
Definition int32 (z : Z) : Z := ((z + 2147483648) mod 4294967296 - 2147483648)%Z.
Definition int64 (z : Z) : Z :=
  ((z + 9223372036854775808) mod 18446744073709551616 - 9223372036854775808)%Z.

Definition in_int32 (z : Z) : bool :=
  ((-2147483648 <=? z) && (z <=? 2147483647))%Z.

(** *** Single precision

    A [float] holds a multiple of [2^(e - 23)] for [e] the exponent of its
    magnitude ([FLT_MANT_DIG = 24]), with [e] at least -126 (denormals share
    the grid of the smallest normal numbers).  Storing a [double] in a
    [float] rounds to the nearest such value, ties to the even significand.
    A magnitude beyond [FLT_MAX], which C turns into an infinity, is rounded
    on the same grid here: statements about stored values name the range
    where it matters. *)
Definition pow2 (k : Z) : Q := 2 ^ k.

(** The integer [e] with [2^e <= a < 2^(e+1)], for [a > 0]. *)
Definition ilog2 (a : Q) : Z :=
  let k := (Z.log2 (Qnum a) - Z.log2 (Zpos (Qden a)))%Z in
  if Qle_bool (pow2 k) a then k else (k - 1)%Z.

(** The nearest integer, ties to even. *)
Definition round_even (y : Q) : Z :=
  let f := Qfloor y in
  let r := y - inject_Z f in
  if Qltb r (1 # 2) then f
  else if Qltb (1 # 2) r then (f + 1)%Z
  else if Z.even f then f else (f + 1)%Z.

Definition exponent (a : Q) : Z := Z.max (ilog2 a) (-126).
Definition ulp (a : Q) : Q := pow2 (exponent a - 23).

Definition float32_abs (a : Q) : Q :=
  inject_Z (round_even (a / ulp a)) * ulp a.

(** [(float) x]. *)
Definition float32 (x : Q) : Q :=
  let x := Qred x in
  if Qeq_bool x 0 then 0
  else if Qltb x 0 then Qred (- float32_abs (- x))
  else Qred (float32_abs x).

Definition FLT_MAX : Q := 340282346638528859811704183484516925440.

(** A floating quotient whose divisor is zero is an infinity or a NaN, not a
    number: [None]. *)
Definition fdiv (a b : Q) : option Q :=
  if Qeq_bool b 0 then None else Some (a / b).

(** Storing a floating expression into an [int32_t] field: defined only when
    the expression is a number whose integral part fits. *)
Definition to_int32 (x : option Q) : option Z :=
  match x with
  | Some q => if in_int32 (trunc q) then Some (trunc q) else None
  | None => None
  end.

(** ** rio.h

    [rio.h] is generated for each board configuration and is not among the
    sources; its constants and tables are parameters of the development. *)

Inductive fb_type := JOINT_FB_ABS | JOINT_FB_REL.
Inductive vout_kind :=
  VOUT_TYPE_SINE | VOUT_TYPE_PWM | VOUT_TYPE_RCSERVO | VOUT_TYPE_OTHER.

(** The tables of [rio.h] are read inside their bounds with the total lookup
    [!!!]; these are its values outside. *)
#[global] Instance Q_inhabited : Inhabited Q := populate 0.
#[global] Instance fb_type_inhabited : Inhabited fb_type := populate JOINT_FB_REL.
#[global] Instance vout_kind_inhabited : Inhabited vout_kind :=
  populate VOUT_TYPE_OTHER.

Record rio_h := {
  JOINTS : nat;
  VARIABLE_OUTPUTS : nat;
  VARIABLE_INPUTS : nat;
  DIGITAL_OUTPUT_BYTES : nat;
  DIGITAL_INPUT_BYTES : nat;
  JOINT_ENABLE_BYTES : nat;
  PRU_BASEFREQ : Q;
  PRU_OSC : Q;
  STEP_MASK : Q;
  PRU_DATA : Z;
  PRU_ESTOP : Z;
  PRU_READ : Z;
  PRU_WRITE : Z;
  joints_fb_scale : list Q;
  joints_fb_type : list fb_type;
  vout_type : list vout_kind;
  vout_freq : list Q;
  vout_min : list Q;
  vout_max : list Q
}.

(** ** data_t *)

(** One joint: the [i]-th entry of every per-joint array.  The pin pointers
    are represented by the values they point to, except [stepperEnable],
    which [update_freq] also uses as a pointer: [None] is the null pointer
    and [Some b] a pin that holds [b]. *)
Record joint := {
  stepperEnable : option bool;
  pos_mode : bool;
  pos_cmd : Q;
  vel_cmd : Q;
  pos_fb : Q;
  count : Z;
  pos_scale : Q;
  freq : Q;
  freq_cmd : Q;
  maxvel : Q;
  maxaccel : Q;
  pgain : Q;
  ff1gain : Q;
  deadband : Q;
  old_scale : Q;
  scale_recip : Q;
  prev_cmd : Q;
  cmd_d : Q;
  accum : Z;
  old_count : Z
}.

Record data_t := {
  SPIenable : bool;
  SPIreset : bool;
  PRUreset : bool;
  SPIresetOld : bool;
  SPIstatus : bool;
  joints : list joint;
  setPoint : list Q;
  processVariable : list Q;
  outputs : list bool;
  inputs : list bool
}.

(** ** update_freq *)

(** The local variables of one pass of the loop body, kept for the
    statements about them.  [band] is the local [deadband] ([None]: plus
    infinity), [error0] is [error] as first computed ([command - feedback])
    and [error] its value after the deadband (all three are left unset in
    velocity mode; 0 here); [vel_law] is [vel_cmd] as the control law leaves
    it, [vel_target] after the conversion to frequency units and the
    frequency limit. *)
Record locals := {
  max_freq : Q;
  max_ac : Q;
  band : option Q;
  error0 : Q;
  error : Q;
  vel_law : Q;
  vel_target : Q;
  dv : Q;
  new_vel : Q
}.

(** Lines 536-544: the scale check.  Returns the new [pos_scale],
    [old_scale] and [scale_recip]; the latter two are [float] fields. *)
Definition check_scale (cfg : rio_h) (j : joint) : Q * Q * Q :=
  if Qneb (pos_scale j) (old_scale j) then
    let scale :=
      if Qltb (pos_scale j) 1e-20 && Qgtb (pos_scale j) (-1e-20)
      then 1 else pos_scale j in
    (scale, float32 (pos_scale j), float32 ((1 / STEP_MASK cfg) / scale))
  else (pos_scale j, old_scale j, scale_recip j).

(** Lines 548-568: the frequency limit.  Returns the new [maxvel] and
    [max_freq]. *)
Definition limit_freq (cfg : rio_h) (maxvel scale : Q) : Q * Q :=
  let max_freq := PRU_BASEFREQ cfg / 2 in
  if Qle_bool maxvel 0 then (0, max_freq)
  else
    let desired_freq := maxvel * fabs scale in
    if Qgtb desired_freq max_freq then (max_freq / fabs scale, max_freq)
    else (maxvel, maxvel * fabs scale).

(** Lines 572-589: the acceleration limit.  Returns the new [maxaccel] and
    [max_ac]. *)
Definition limit_accel (max_freq recip_dt maxaccel scale : Q) : Q * Q :=
  let max_ac := max_freq * recip_dt in
  if Qle_bool maxaccel 0 then (0, max_ac)
  else if Qgtb (maxaccel * fabs scale) max_ac then (max_ac / fabs scale, max_ac)
  else (maxaccel, maxaccel * fabs scale).

(** Lines 631-639. *)
Definition apply_deadband (error deadband : Q) : Q :=
  if Qgtb error deadband then error - deadband
  else if Qltb error (- deadband) then error + deadband
  else 0.

(** Lines 602-614: a gain pin that holds 0 selects the default. *)
Definition pin_or (pin default : Q) : Q :=
  if Qneb pin 0 then pin else default.

(** Lines 616-621: the local [deadband], a [float]: the pin, or
    [1 / data->pos_scale[i]] when the pin holds 0.  With a scale of 0 that
    quotient is plus infinity: [None]. *)
Definition deadband_of (pin scale : Q) : option Q :=
  if Qneb pin 0 then Some (float32 pin)
  else if Qeq_bool scale 0 then None
  else Some (float32 (1 / scale)).

(** Lines 631-639 with the local [deadband]; neither comparison holds when
    it is infinite. *)
Definition deadband_error (error : Q) (deadband : option Q) : Q :=
  match deadband with
  | Some d => apply_deadband error d
  | None => 0
  end.

(** Lines 662-667. *)
Definition clamp_freq (vel max_freq : Q) : Q :=
  if Qgtb vel max_freq then max_freq
  else if Qltb vel (- max_freq) then - max_freq
  else vel.

(** Lines 673-681. *)
Definition slew (vel freq dv : Q) : Q :=
  if Qgtb vel (freq + dv) then freq + dv
  else if Qltb vel (freq - dv) then freq - dv
  else vel.

(** Line 684: [*data->stepperEnable == 0].  [->] binds tighter than [*], so
    the operand is [data->stepperEnable[0]], the pin pointer of joint 0, and
    the test compares that pointer with the null pointer. *)
Definition enable_test (stepperEnable0 : option bool) : bool :=
  match stepperEnable0 with
  | None => true
  | Some _ => false
  end.

(** The loop body for one joint (lines 535-690).  [stepperEnable0] is the
    pin pointer [data->stepperEnable[0]].  The locals [pgain], [ff1gain]
    and [deadband] and the fields [cmd_d], [prev_cmd] and [freq] are
    [float]s: what is stored in them is rounded, and the product
    [data->cmd_d[i] * ff1gain] of two [float]s is a [float]. *)
Definition update_joint (cfg : rio_h) (periodrecip dt recip_dt : Q)
    (stepperEnable0 : option bool) (j : joint) : joint * locals :=
  let '(scale, oscale, recip) := check_scale cfg j in
  let '(mvel, max_freq) := limit_freq cfg (maxvel j) scale in
  let '(macc, max_ac) := limit_accel max_freq recip_dt (maxaccel j) scale in
  let pgain_f := float32 (pin_or (pgain j) 1) in
  let ff1gain_f := float32 (pin_or (ff1gain j) 1) in
  let band := if pos_mode j then deadband_of (deadband j) scale else Some 0 in
  let command := pos_cmd j in
  let feedback := pos_fb j in
  let error0 := if pos_mode j then command - feedback else 0 in
  let error := if pos_mode j then deadband_error error0 band else 0 in
  let cmd_d' :=
    if pos_mode j then float32 ((command - prev_cmd j) * periodrecip)
    else cmd_d j in
  let prev_cmd' := if pos_mode j then float32 command else prev_cmd j in
  let vel_law :=
    if pos_mode j
    then pgain_f * error + float32 (cmd_d' * ff1gain_f)
    else vel_cmd j in
  let vel_target := clamp_freq (vel_law * scale) max_freq in
  let dv := max_ac * dt in
  let new_vel :=
    if enable_test stepperEnable0 then 0 else slew vel_target (freq j) dv in
  ({| stepperEnable := stepperEnable j;
      pos_mode := pos_mode j;
      pos_cmd := pos_cmd j;
      vel_cmd := vel_cmd j;
      pos_fb := pos_fb j;
      count := count j;
      pos_scale := scale;
      freq := float32 new_vel;
      freq_cmd := float32 new_vel;
      maxvel := mvel;
      maxaccel := macc;
      pgain := pgain j;
      ff1gain := ff1gain j;
      deadband := deadband j;
      old_scale := oscale;
      scale_recip := recip;
      prev_cmd := prev_cmd';
      cmd_d := cmd_d';
      accum := accum j;
      old_count := old_count j |},
   {| max_freq := max_freq;
      max_ac := max_ac;
      band := band;
      error0 := error0;
      error := error;
      vel_law := vel_law;
      vel_target := vel_target;
      dv := dv;
      new_vel := new_vel |}).

(** ** The packets and the static variables *)

(** [txData_t] and [rxData_t] by their fields; the byte buffers overlaid on
    them are the same data on the wire.  The declarations are in [rio.h]:
    headers, frequency ratios, set points, counters and process values are
    taken as [int32_t] words, the bit fields as bytes.  An outbound word
    that the code fills from an undefined floating value is [None]. *)
Record txData_t := {
  tx_header : Z;
  jointFreqCmd : list (option Z);
  tx_setPoint : list (option Z);
  jointEnable : list Z;
  tx_outputs : list Z
}.

Record rxData_t := {
  rx_header : Z;
  jointFeedback : list Z;
  rx_processVariable : list Z;
  rx_inputs : list Z
}.

(** What [rtapi_print_msg] and [rtapi_print] write in [spi_read]. *)
Inductive msg :=
| Msg_estop_active
| Msg_bad_payload (header : Z).

(** The component: [data], the static packets and timing constants, and two
    records of its effects on the outside: [bus], the packets sent by
    [spi_transfer] (latest first), and [console]. *)
Record state := {
  data : data_t;
  txData : txData_t;
  rxData : rxData_t;
  old_dtns : Z;
  dt : Q;
  recip_dt : Q;
  bus : list txData_t;
  console : list msg
}.

Definition set_data (d : data_t) (s : state) : state :=
  {| data := d; txData := txData s; rxData := rxData s;
     old_dtns := old_dtns s; dt := dt s; recip_dt := recip_dt s;
     bus := bus s; console := console s |}.

Definition set_txData (t : txData_t) (s : state) : state :=
  {| data := data s; txData := t; rxData := rxData s;
     old_dtns := old_dtns s; dt := dt s; recip_dt := recip_dt s;
     bus := bus s; console := console s |}.

Definition set_rxData (r : rxData_t) (s : state) : state :=
  {| data := data s; txData := txData s; rxData := r;
     old_dtns := old_dtns s; dt := dt s; recip_dt := recip_dt s;
     bus := bus s; console := console s |}.

Definition set_period (p : Z) (s : state) : state :=
  {| data := data s; txData := txData s; rxData := rxData s;
     old_dtns := p;
     dt := inject_Z p * 0.000000001;
     recip_dt := 1 / (inject_Z p * 0.000000001);
     bus := bus s; console := console s |}.

Definition print (m : msg) (s : state) : state :=
  {| data := data s; txData := txData s; rxData := rxData s;
     old_dtns := old_dtns s; dt := dt s; recip_dt := recip_dt s;
     bus := bus s; console := m :: console s |}.

Definition set_joints (js : list joint) (d : data_t) : data_t :=
  {| SPIenable := SPIenable d; SPIreset := SPIreset d;
     PRUreset := PRUreset d; SPIresetOld := SPIresetOld d;
     SPIstatus := SPIstatus d; joints := js; setPoint := setPoint d;
     processVariable := processVariable d; outputs := outputs d;
     inputs := inputs d |}.

Definition set_SPIstatus (b : bool) (d : data_t) : data_t :=
  {| SPIenable := SPIenable d; SPIreset := SPIreset d;
     PRUreset := PRUreset d; SPIresetOld := SPIresetOld d;
     SPIstatus := b; joints := joints d; setPoint := setPoint d;
     processVariable := processVariable d; outputs := outputs d;
     inputs := inputs d |}.

Definition set_SPIresetOld (b : bool) (d : data_t) : data_t :=
  {| SPIenable := SPIenable d; SPIreset := SPIreset d;
     PRUreset := PRUreset d; SPIresetOld := b;
     SPIstatus := SPIstatus d; joints := joints d; setPoint := setPoint d;
     processVariable := processVariable d; outputs := outputs d;
     inputs := inputs d |}.

Definition set_feedback (pv : list Q) (ins : list bool) (d : data_t) : data_t :=
  {| SPIenable := SPIenable d; SPIreset := SPIreset d;
     PRUreset := PRUreset d; SPIresetOld := SPIresetOld d;
     SPIstatus := SPIstatus d; joints := joints d; setPoint := setPoint d;
     processVariable := pv; outputs := outputs d;
     inputs := ins |}.

Definition set_tx_header (h : Z) (t : txData_t) : txData_t :=
  {| tx_header := h; jointFreqCmd := jointFreqCmd t;
     tx_setPoint := tx_setPoint t; jointEnable := jointEnable t;
     tx_outputs := tx_outputs t |}.

(** [update_freq] (lines 511-693).  [period] is the [long] argument.  The
    per-joint arrays have [JOINTS] entries, so the loop over [i < JOINTS] is
    a map over the list of joints. *)
Definition update_freq (cfg : rio_h) (period : Z) (s : state) : state :=
  let periodfp := inject_Z period * 0.000000001 in
  let periodrecip := 1 / periodfp in
  let s1 := if negb (period =? old_dtns s)%Z then set_period period s else s in
  let stepperEnable0 := head (joints (data s1)) ≫= stepperEnable in
  let js :=
    (λ j, fst (update_joint cfg periodrecip (dt s1) (recip_dt s1)
                 stepperEnable0 j)) <$> joints (data s1) in
  set_data (set_joints js (data s1)) s1.

(** The local variables of the loop body of [update_freq] for joint [i]. *)
Definition update_freq_locals (cfg : rio_h) (period : Z) (s : state)
    (i : nat) : option locals :=
  let periodfp := inject_Z period * 0.000000001 in
  let periodrecip := 1 / periodfp in
  let s1 := if negb (period =? old_dtns s)%Z then set_period period s else s in
  let stepperEnable0 := head (joints (data s1)) ≫= stepperEnable in
  (λ j, snd (update_joint cfg periodrecip (dt s1) (recip_dt s1)
               stepperEnable0 j)) <$> joints (data s1) !! i.

(** ** spi_transfer, spi_write, spi_read *)

(** [spi_transfer] (lines 853-868) clocks [txData] out and the answer of the
    board into [rxData].  The answer [resp] is the environment's. *)
Definition spi_transfer (resp : rxData_t) (s : state) : state :=
  {| data := data s; txData := txData s; rxData := resp;
     old_dtns := old_dtns s; dt := dt s; recip_dt := recip_dt s;
     bus := txData s :: bus s; console := console s |}.

(** A byte built by [byte |= (1 << i)] for the [i < n] that satisfy [f]. *)
Definition pack_bits (f : nat → bool) (n : nat) : Z :=
  foldl (λ (b : Z) (i : nat),
           if f i then Z.land (Z.lor b (Z.shiftl 1 (Z.of_nat i))) 255 else b)
        0%Z (seq 0 n).

(** Lines 820-833: the encoding of one set point.  [0xFFFFFFFF / 2] is an
    integer quotient. *)
Definition encode_setPoint (cfg : rio_h) (i : nat) (sp : Q) : option Z :=
  let vfreq := vout_freq cfg !!! i in
  match vout_type cfg !!! i with
  | VOUT_TYPE_SINE =>
      to_int32 (fdiv (PRU_OSC cfg) sp ≫= λ q, fdiv q vfreq)
  | VOUT_TYPE_PWM =>
      to_int32 ((λ q, sp * q / 100) <$> fdiv (PRU_OSC cfg) vfreq)
  | VOUT_TYPE_RCSERVO =>
      to_int32 (Some ((sp + 200 + 100) * (PRU_OSC cfg / 200000)))
  | VOUT_TYPE_OTHER =>
      to_int32 (fdiv ((sp - vout_min cfg !!! i) * inject_Z (4294967295 / 2))
                     (vout_max cfg !!! i - vout_min cfg !!! i))
  end.

(** [spi_write] (lines 795-850).  [PRU_OSC] is an integer constant and
    [data->freq[i]] a [float], so the quotient of line 806 is a
    single-precision one.  A pin read through an index past the end of its
    array, or through a null pointer, sets no bit. *)
Definition spi_write (cfg : rio_h) (resp : rxData_t) (s : state) : state :=
  let d := data s in
  let t :=
    {| tx_header := PRU_WRITE cfg;
       jointFreqCmd :=
         (λ j, to_int32 (float32 <$> fdiv (float32 (PRU_OSC cfg)) (freq j)))
           <$> joints d;
       jointEnable :=
         (λ bi, pack_bits
                  (λ i, bool_decide
                          (joints d !! (bi * 8 + i)%nat ≫= stepperEnable
                           = Some true))
                  (length (joints d))) <$> seq 0 (JOINT_ENABLE_BYTES cfg);
       tx_setPoint := imap (encode_setPoint cfg) (setPoint d);
       tx_outputs :=
         (λ bi, pack_bits
                  (λ i, bool_decide (outputs d !! (bi * 8 + i)%nat = Some true))
                  8) <$> seq 0 (DIGITAL_OUTPUT_BYTES cfg) |} in
  let s1 := set_txData t s in
  if SPIstatus d then spi_transfer resp s1 else s1.

(** Lines 725-746: the feedback of joint [i], given the received counter.
    Returns the joint and the counter as [/=] leaves it in [rxData].
    [accum_diff] is the [int32_t] difference, [accum] is [int64_t] and the
    [count] pin is [hal_s32_t].  Line 729 casts the counter to [float]
    before the division, line 743 the quotient after it; [scale_recip] is a
    [float] field. *)
Definition read_joint (cfg : rio_h) (i : nat) (raw : Z) (j : joint)
    : joint * Z :=
  let fb := int32 (trunc (inject_Z raw / (joints_fb_scale cfg !!! i))) in
  match joints_fb_type cfg !!! i with
  | JOINT_FB_ABS =>
      ({| stepperEnable := stepperEnable j; pos_mode := pos_mode j;
          pos_cmd := pos_cmd j; vel_cmd := vel_cmd j;
          pos_fb := float32 (inject_Z fb) / pos_scale j;
          count := count j; pos_scale := pos_scale j; freq := freq j;
          freq_cmd := freq_cmd j; maxvel := maxvel j; maxaccel := maxaccel j;
          pgain := pgain j; ff1gain := ff1gain j; deadband := deadband j;
          old_scale := old_scale j; scale_recip := scale_recip j;
          prev_cmd := prev_cmd j; cmd_d := cmd_d j;
          accum := accum j; old_count := old_count j |}, fb)
  | JOINT_FB_REL =>
      let accum_diff := int32 (fb - old_count j) in
      let accum' := int64 (accum j + accum_diff) in
      let curr_pos := inject_Z accum' in
      ({| stepperEnable := stepperEnable j; pos_mode := pos_mode j;
          pos_cmd := pos_cmd j; vel_cmd := vel_cmd j;
          pos_fb := float32 ((curr_pos + 0.5) / pos_scale j);
          count := int32 accum'; pos_scale := pos_scale j; freq := freq j;
          freq_cmd := freq_cmd j; maxvel := maxvel j; maxaccel := maxaccel j;
          pgain := pgain j; ff1gain := ff1gain j; deadband := deadband j;
          old_scale := old_scale j; scale_recip := float32 (pos_scale j);
          prev_cmd := prev_cmd j; cmd_d := cmd_d j;
          accum := accum'; old_count := fb |}, fb)
  end.

(** Lines 756-767: every bit of the received input bytes and its complement. *)
Definition unpack_inputs (cfg : rio_h) (rxin : list Z) (ins : list bool)
    : list bool :=
  foldl (λ ins bi,
           foldl (λ ins i,
                    let b := Z.testbit (default 0%Z (rxin !! bi)) (Z.of_nat i) in
                    <[(bi * 8 + i * 2 + 1)%nat := negb b]>
                      (<[(bi * 8 + i * 2)%nat := b]> ins))
                 ins (seq 0 8))
        ins (seq 0 (DIGITAL_INPUT_BYTES cfg)).

(** Lines 721-768: the [PRU_DATA] case. *)
Definition decode (cfg : rio_h) (s : state) : state :=
  let d := data s in
  let r := rxData s in
  let js := imap (λ i j, fst (read_joint cfg i
                              (default 0%Z (jointFeedback r !! i)) j))
                 (joints d) in
  let fbs := imap (λ i raw,
                     match joints d !! i with
                     | Some j => snd (read_joint cfg i raw j)
                     | None => raw
                     end) (jointFeedback r) in
  let pv := imap (λ i v, default v (inject_Z <$> rx_processVariable r !! i))
                 (processVariable d) in
  let ins := unpack_inputs cfg (rx_inputs r) (inputs d) in
  set_rxData {| rx_header := rx_header r; jointFeedback := fbs;
                rx_processVariable := rx_processVariable r;
                rx_inputs := rx_inputs r |}
    (set_data (set_feedback pv ins (set_joints js (set_SPIstatus true d))) s).

(** The condition of line 714. *)
Definition rising_edge (d : data_t) : bool := SPIreset d && negb (SPIresetOld d).
Definition attempt (d : data_t) : bool := rising_edge d || SPIstatus d.

(** [spi_read] (lines 696-792).  The [PRU_ESTOP] case falls through into
    [default]. *)
Definition spi_read (cfg : rio_h) (resp : rxData_t) (s : state) : state :=
  let s0 := set_txData (set_tx_header (PRU_READ cfg) (txData s)) s in
  let s1 :=
    if SPIenable (data s0) then
      if attempt (data s0) then
        let s2 := spi_transfer resp s0 in
        if (rx_header (rxData s2) =? PRU_DATA cfg)%Z then decode cfg s2
        else if (rx_header (rxData s2) =? PRU_ESTOP cfg)%Z then
          let s3 := set_data (set_SPIstatus false (data s2)) s2 in
          let s4 := print Msg_estop_active s3 in
          let s5 := set_data (set_SPIstatus false (data s4)) s4 in
          print (Msg_bad_payload (rx_header (rxData s5))) s5
        else
          let s3 := set_data (set_SPIstatus false (data s2)) s2 in
          print (Msg_bad_payload (rx_header (rxData s3))) s3
      else s0
    else set_data (set_SPIstatus false (data s0)) s0 in
  set_data (set_SPIresetOld (SPIreset (data s1)) (data s1)) s1.

(** ** The component in its environment *)

(** The state [rtapi_app_main] hands to the realtime thread when it succeeds
    (lines 220-309): every pin is created, so no pin pointer is null;
    [scale] and [maxaccel] are 1, the inverted input pins are 1, and
    everything else is 0 (the remaining fields of [data] lie in HAL memory,
    which is handed out zeroed, and the statics are zero-initialised).
    [ctrl] tells for each joint whether [ctrl_type] selects position mode; a
    missing entry selects it too. *)
Definition init_joint (position : bool) : joint :=
  {| stepperEnable := Some false; pos_mode := position;
     pos_cmd := 0; vel_cmd := 0; pos_fb := 0; count := 0;
     pos_scale := 1; freq := 0; freq_cmd := 0; maxvel := 0; maxaccel := 1;
     pgain := 0; ff1gain := 0; deadband := 0;
     old_scale := 0; scale_recip := 0; prev_cmd := 0; cmd_d := 0;
     accum := 0; old_count := 0 |}.

Definition init (cfg : rio_h) (ctrl : list bool) : state :=
  {| data :=
       {| SPIenable := false; SPIreset := false; PRUreset := false;
          SPIresetOld := false; SPIstatus := false;
          joints := (λ i, init_joint (default true (ctrl !! i)))
                      <$> seq 0 (JOINTS cfg);
          setPoint := replicate (VARIABLE_OUTPUTS cfg) 0;
          processVariable := replicate (VARIABLE_INPUTS cfg) 0;
          outputs := replicate (DIGITAL_OUTPUT_BYTES cfg * 8) false;
          inputs :=
            unpack_inputs cfg (replicate (DIGITAL_INPUT_BYTES cfg) 0%Z)
              (replicate (DIGITAL_INPUT_BYTES cfg * 8 * 2) false) |};
     txData :=
       {| tx_header := 0; jointFreqCmd := replicate (JOINTS cfg) (Some 0%Z);
          tx_setPoint := replicate (VARIABLE_OUTPUTS cfg) (Some 0%Z);
          jointEnable := replicate (JOINT_ENABLE_BYTES cfg) 0%Z;
          tx_outputs := replicate (DIGITAL_OUTPUT_BYTES cfg) 0%Z |};
     rxData :=
       {| rx_header := 0; jointFeedback := replicate (JOINTS cfg) 0%Z;
          rx_processVariable := replicate (VARIABLE_INPUTS cfg) 0%Z;
          rx_inputs := replicate (DIGITAL_INPUT_BYTES cfg) 0%Z |};
     old_dtns := 0; dt := 0; recip_dt := 0; bus := []; console := [] |}.

(** Between two calls the host (other HAL components, [setp]) writes the
    input pins and the read-write parameters [rtapi_app_main] exports, and
    nothing else.  The parameters are [scale] (line 251) and [maxaccel]
    (line 276): [maxvel], which [data_t] declares and [update_freq] reads,
    is not exported, so the host cannot write it. *)
Record joint_in := {
  in_enable : bool;
  in_pos_cmd : Q;
  in_vel_cmd : Q;
  in_pgain : Q;
  in_ff1gain : Q;
  in_deadband : Q;
  in_scale : Q;
  in_maxaccel : Q
}.

Record host_in := {
  in_SPIenable : bool;
  in_SPIreset : bool;
  in_PRUreset : bool;
  in_joints : list joint_in;
  in_setPoint : list Q;
  in_outputs : list bool
}.

Definition host_joint (x : joint_in) (j : joint) : joint :=
  {| stepperEnable := (λ _, in_enable x) <$> stepperEnable j;
     pos_mode := pos_mode j;
     pos_cmd := in_pos_cmd x; vel_cmd := in_vel_cmd x;
     pos_fb := pos_fb j; count := count j;
     pos_scale := in_scale x; freq := freq j; freq_cmd := freq_cmd j;
     maxvel := maxvel j; maxaccel := in_maxaccel x;
     pgain := in_pgain x; ff1gain := in_ff1gain x; deadband := in_deadband x;
     old_scale := old_scale j; scale_recip := scale_recip j;
     prev_cmd := prev_cmd j; cmd_d := cmd_d j;
     accum := accum j; old_count := old_count j |}.

(** Entries the host gives no value for keep theirs. *)
Definition host_write (h : host_in) (s : state) : state :=
  let d := data s in
  set_data
    {| SPIenable := in_SPIenable h; SPIreset := in_SPIreset h;
       PRUreset := in_PRUreset h; SPIresetOld := SPIresetOld d;
       SPIstatus := SPIstatus d;
       joints := imap (λ i j, default j ((λ x, host_joint x j)
                                           <$> in_joints h !! i)) (joints d);
       setPoint := imap (λ i v, default v (in_setPoint h !! i)) (setPoint d);
       processVariable := processVariable d;
       outputs := imap (λ i v, default v (in_outputs h !! i)) (outputs d);
       inputs := inputs d |} s.

(** What the realtime thread and the host do, one call at a time. *)
Inductive call :=
| Host (h : host_in)
| Update_freq (period : Z)
| Spi_write (resp : rxData_t)
| Spi_read (resp : rxData_t).

Definition exec (cfg : rio_h) (c : call) (s : state) : state :=
  match c with
  | Host h => host_write h s
  | Update_freq period => update_freq cfg period s
  | Spi_write resp => spi_write cfg resp s
  | Spi_read resp => spi_read cfg resp s
  end.

Definition run (cfg : rio_h) (cs : list call) (s : state) : state :=
  foldl (λ s c, exec cfg c s) s cs.

Definition reachable (cfg : rio_h) (ctrl : list bool) (s : state) : Prop :=
  ∃ cs, s = run cfg cs (init cfg ctrl).

(** A board with one joint and 1 kHz servo thread values, for the
    examples. *)
Definition board1 : rio_h :=
  {| JOINTS := 1; VARIABLE_OUTPUTS := 0; VARIABLE_INPUTS := 0;
     DIGITAL_OUTPUT_BYTES := 1; DIGITAL_INPUT_BYTES := 1;
     JOINT_ENABLE_BYTES := 1;
     PRU_BASEFREQ := 120000; PRU_OSC := 48000000; STEP_MASK := 4194304;
     PRU_DATA := 1684108385; PRU_ESTOP := 1702065264;
     PRU_READ := 1919246692; PRU_WRITE := 2003986804;
     joints_fb_scale := [1]; joints_fb_type := [JOINT_FB_REL];
     vout_type := []; vout_freq := []; vout_min := []; vout_max := [] |}.

(** ** rtapi_app_main *)

Inductive CONTROL := POSITION | VELOCITY | INVALID.

(** [parse_ctrl_type] (lines 870-875).  [None] is the null pointer; a string
    whose first character is NUL is the empty C string. *)
Definition parse_ctrl_type (ctrl : option String.string) : CONTROL :=
  match ctrl with
  | None => POSITION
  | Some String.EmptyString => POSITION
  | Some (String.String c _) =>
      if (c =? zero)%char || (c =? "p")%char || (c =? "P")%char then POSITION
      else if (c =? "v")%char || (c =? "V")%char then VELOCITY
      else INVALID
  end.

Definition is_INVALID (c : CONTROL) : bool :=
  match c with
  | INVALID => true
  | _ => false
  end.

Definition is_POSITION (c : CONTROL) : bool :=
  match c with
  | POSITION => true
  | _ => false
  end.

(** The array [ctrl_type] has [JOINTS] entries, those not given being
    null. *)
Definition ctrl_type_entry (ctrl_type : list (option String.string))
    (n : nat) : option String.string :=
  default None (ctrl_type !! n).

(** How the calls of [rtapi_app_main] into HAL and the BCM2835 library turn
    out, in the order it makes them: [hal_init] returns a component id that
    is not negative, [hal_malloc] a pointer that is not null,
    [rt_bcm2835_init] and [bcm2835_spi_begin] a value other than 0, every
    [hal_pin_..._newf] and [hal_param_float_newf] returns 0 (they return 0
    or a negative error code, so the tests [!= 0] and [< 0] of lines
    201-311 agree), each [hal_export_funct] a value that is not negative. *)
Record startup := {
  hal_init_ok : bool;
  hal_malloc_ok : bool;
  rt_bcm2835_init_ok : bool;
  bcm2835_spi_begin_ok : bool;
  pin_export_ok : bool;
  export_update_freq_ok : bool;
  export_write_ok : bool;
  export_read_ok : bool
}.

(** [rtapi_app_main] (lines 130-360): [None] is [return -1].  The first
    loop refuses a bad control type; then each call that fails ends the
    start-up; otherwise the component starts in [init] with
    [pos_mode[n] = (parse_ctrl_type(ctrl_type[n]) == POSITION)]. *)
Definition rtapi_app_main (cfg : rio_h) (env : startup)
    (ctrl_type : list (option String.string)) : option state :=
  if existsb (λ n, is_INVALID (parse_ctrl_type (ctrl_type_entry ctrl_type n)))
       (seq 0 (JOINTS cfg))
  then None
  else if negb (hal_init_ok env) then None
  else if negb (hal_malloc_ok env) then None
  else if negb (rt_bcm2835_init_ok env) then None
  else if negb (bcm2835_spi_begin_ok env) then None
  else if negb (pin_export_ok env) then None
  else if negb (export_update_freq_ok env) then None
  else if negb (export_write_ok env) then None
  else if negb (export_read_ok env) then None
  else Some (init cfg
               ((λ n, is_POSITION
                        (parse_ctrl_type (ctrl_type_entry ctrl_type n)))
                  <$> seq 0 (JOINTS cfg))).

(** Every call succeeds. *)
Definition all_ok (env : startup) : bool :=
  hal_init_ok env && hal_malloc_ok env && rt_bcm2835_init_ok env
  && bcm2835_spi_begin_ok env && pin_export_ok env
  && export_update_freq_ok env && export_write_ok env && export_read_ok env.

(** ** rt_bcm2835_init: the peripheral block from the device tree *)

(** The three peripheral bases the code accepts; they are declared in
    [bcm2835.h], which is not among the sources. *)
Record bcm2835_h := {
  BCM2835_PERI_BASE : Z;
  BCM2835_RPI2_PERI_BASE : Z;
  BCM2835_RPI4_PERI_BASE : Z
}.

(** [(b0 << 24) | (b1 << 16) | (b2 << 8) | (b3 << 0)] stored in a
    [uint32_t]. *)
Definition be32 (b0 b1 b2 b3 : Z) : Z :=
  (Z.lor (Z.lor (Z.lor (Z.shiftl b0 24) (Z.shiftl b1 16)) (Z.shiftl b2 8))
         (Z.shiftl b3 0) mod 4294967296)%Z.

(** The statics the block sets. *)
Record peripherals := {
  bcm2835_peripherals_base : Z;
  bcm2835_peripherals_size : Z;
  pud_type_rpi4 : bool
}.

(** [buf] after [fread(buf, 1, sizeof(buf), fp)]: the first 16 bytes of the
    file over what the 16 bytes of [buf] held before ([stack]); the number of
    bytes read is the length of the first part. *)
Definition fread16 (stack file : list Z) : list Z * nat :=
  (take 16 file ++ drop (length (take 16 file)) stack, length (take 16 file)).

(** Lines 402-445.  [file] is the content of the device-tree file, [None]
    when it cannot be opened. *)
Definition read_dt_ranges (h : bcm2835_h) (stack : list Z)
    (file : option (list Z)) (p : peripherals) : peripherals :=
  match file with
  | None => p
  | Some bytes =>
      let '(buf, nread) := fread16 stack bytes in
      let b i := default 0%Z (buf !! i) in
      if (8 <=? nread)%nat then
        let base0 := be32 (b 4%nat) (b 5%nat) (b 6%nat) (b 7%nat) in
        let size0 := be32 (b 8%nat) (b 9%nat) (b 10%nat) (b 11%nat) in
        let base_address :=
          if (base0 =? 0)%Z
          then be32 (b 8%nat) (b 9%nat) (b 10%nat) (b 11%nat) else base0 in
        let peri_size :=
          if (base0 =? 0)%Z
          then be32 (b 12%nat) (b 13%nat) (b 14%nat) (b 15%nat) else size0 in
        if (b 0%nat =? 126)%Z && (b 1%nat =? 0)%Z && (b 2%nat =? 0)%Z
           && (b 3%nat =? 0)%Z
           && ((base_address =? BCM2835_PERI_BASE h)%Z
               || (base_address =? BCM2835_RPI2_PERI_BASE h)%Z
               || (base_address =? BCM2835_RPI4_PERI_BASE h)%Z)
        then {| bcm2835_peripherals_base := base_address;
                bcm2835_peripherals_size := peri_size;
                pud_type_rpi4 :=
                  if (base_address =? BCM2835_RPI4_PERI_BASE h)%Z
                  then true else pud_type_rpi4 p |}
        else p
      else p
  end.

(** ** Notions used in the statements *)

(** The most a value moves when it is stored in a [float], half a unit in
    the last place: [|x| / 2^24] for a normal number, [2^-150] for a
    denormal one. *)
Definition float32_slack (x : Q) : Q := Qabs x * (1 # 16777216) + pow2 (-150).


(** What the host cannot change and [update_freq] keeps: [maxvel] is 0, as
    from the start, and the stored frequency is a single-precision value. *)
Definition stored_ok (j : joint) : Prop :=
  maxvel j = 0 ∧ float32 (freq j) == freq j.


(** Every pin of the joint was created, and the published frequency command
    is the stored one. *)
Definition joint_ok (j : joint) : Prop :=
  stepperEnable j ≠ None ∧ freq_cmd j = freq j.

(** The joints are in order and the cached period constants belong to
    [old_dtns]. *)
Record wf (s : state) : Prop := {
  wf_joints : Forall joint_ok (joints (data s));
  wf_dt : dt s == inject_Z (old_dtns s) * 0.000000001;
  wf_recip : recip_dt s == 1 / dt s
}.

(** The period constants the loop of [update_freq] runs with. *)
Definition tick_state (period : Z) (s : state) : state :=
  if negb (period =? old_dtns s)%Z then set_period period s else s.

(** The loop body of [update_freq] as that call runs it on joint [j]. *)
Definition tick_joint (cfg : rio_h) (period : Z) (s : state) (j : joint)
    : joint * locals :=
  update_joint cfg (1 / (inject_Z period * 0.000000001))
    (dt (tick_state period s)) (recip_dt (tick_state period s))
    (head (joints (data s)) ≫= stepperEnable) j.

Definition is_read (c : call) : bool :=
  match c with
  | Spi_read _ => true
  | _ => false
  end.

(** No call of [spi_read] in the run finds a rising edge of the reset pin. *)
Fixpoint no_edge (cfg : rio_h) (cs : list call) (s : state) : Prop :=
  match cs with
  | [] => True
  | c :: cs =>
      (is_read c = true → rising_edge (data s) = false)
      ∧ no_edge cfg cs (exec cfg c s)
  end.




(** A change within half the range of the 32-bit counter. *)
Definition half_range (d : Z) : Prop := (-2147483648 <= d < 2147483648)%Z.

Definition in_int64 (z : Z) : Prop :=
  (-9223372036854775808 <= z < 9223372036854775808)%Z.

(** ** Inputs of the examples *)

(** The host writes the pins of joint 0, with the link enabled. *)
Definition host1 (x : joint_in) : host_in :=
  {| in_SPIenable := true; in_SPIreset := false; in_PRUreset := false;
     in_joints := [x]; in_setPoint := []; in_outputs := [] |}.

(** A velocity-mode joint, its enable pin low, commanded to one unit per
    second. *)
Definition disabled_moving : joint_in :=
  {| in_enable := false; in_pos_cmd := 0; in_vel_cmd := 1; in_pgain := 0;
     in_ff1gain := 0; in_deadband := 0; in_scale := 1; in_maxaccel := 1 |}.

(** A velocity command of 1000 with the enable pin low. *)
Definition disabled_full_speed : joint_in :=
  {| in_enable := false; in_pos_cmd := 0; in_vel_cmd := 1000; in_pgain := 0;
     in_ff1gain := 0; in_deadband := 0; in_scale := 1; in_maxaccel := 0 |}.

(** A velocity-mode command of 1 with no acceleration limit; [maxvel] is
    what it is from the start, 0. *)
Definition maxvel_unset : joint_in :=
  {| in_enable := true; in_pos_cmd := 0; in_vel_cmd := 1; in_pgain := 0;
     in_ff1gain := 0; in_deadband := 0; in_scale := 1; in_maxaccel := 0 |}.

(** The position step: [scale = 1000], [pgain = 1], [ff1gain = 0],
    [deadband = 0], command 1. *)
Definition position_step : joint_in :=
  {| in_enable := true; in_pos_cmd := 1; in_vel_cmd := 0; in_pgain := 1;
     in_ff1gain := 0; in_deadband := 0; in_scale := 1000; in_maxaccel := 1 |}.









(** The host sets the scale of joint 0. *)
Definition scale_to (x : Q) : joint_in :=
  {| in_enable := true; in_pos_cmd := 0; in_vel_cmd := 0; in_pgain := 0;
     in_ff1gain := 0; in_deadband := 0; in_scale := x; in_maxaccel := 1 |}.

(** The host enables the link and raises the reset pin. *)
Definition link_up : host_in :=
  {| in_SPIenable := true; in_SPIreset := true; in_PRUreset := false;
     in_joints := []; in_setPoint := []; in_outputs := [] |}.

(** An answer of the board: a header, one counter and one input byte. *)
Definition answer (header counter : Z) : rxData_t :=
  {| rx_header := header; jointFeedback := [counter];
     rx_processVariable := []; rx_inputs := [5%Z] |}.

(** The link after a valid first exchange, and after a corrupt one. *)
Definition link_active : state :=
  run board1 [Host link_up; Spi_read (answer (PRU_DATA board1) 7)]
    (init board1 [true]).

Definition link_fault : state :=
  run board1 [Host link_up; Spi_read (answer 0 7)] (init board1 [true]).

(** ** Notions used in the further properties *)

(** The four bytes of a 32-bit word, most significant first. *)
Definition be_bytes (x : Z) : list Z :=
  [(x / 16777216) mod 256; (x / 65536) mod 256; (x / 256) mod 256;
   x mod 256]%Z.

(** Input pin pair [m]: pin [2 m] and its inverted twin [2 m + 1]. *)
Definition pair_ok (ins : list bool) (m : nat) : Prop :=
  ∃ b, ins !! (2 * m)%nat = Some b ∧ ins !! (2 * m + 1)%nat = Some (negb b).

Definition write_byte (byte : Z) (bi : nat) (ins : list bool) (ks : list nat)
    : list bool :=
  foldl (λ ins i,
           let b := Z.testbit byte (Z.of_nat i) in
           <[(bi * 8 + i * 2 + 1)%nat := negb b]>
             (<[(bi * 8 + i * 2)%nat := b]> ins)) ins ks.

(** The feedback registers of the joints: position, count pin,
    accumulator and stored counter. *)
Definition feedback_of (s : state) : list (Q * Z * Z * Z) :=
  (λ j, (pos_fb j, count j, accum j, old_count j)) <$> joints (data s).

(** The count pin and the accumulator both agree with the stored counter
    modulo 2^32. *)
Definition count_ok (j : joint) : Prop :=
  count j = old_count j ∧ int32 (accum j) = old_count j.

(** The peripheral bases of the three board families. *)
Definition bcm_bases : bcm2835_h :=
  {| BCM2835_PERI_BASE := 536870912;
     BCM2835_RPI2_PERI_BASE := 1056964608;
     BCM2835_RPI4_PERI_BASE := 4261412864 |}.

(** A board with one linear analog output over the range 0 to 10. *)
Definition board_linear : rio_h :=
  {| JOINTS := 1; VARIABLE_OUTPUTS := 1; VARIABLE_INPUTS := 0;
     DIGITAL_OUTPUT_BYTES := 1; DIGITAL_INPUT_BYTES := 1;
     JOINT_ENABLE_BYTES := 1;
     PRU_BASEFREQ := 120000; PRU_OSC := 48000000; STEP_MASK := 4194304;
     PRU_DATA := 1684108385; PRU_ESTOP := 1702065264;
     PRU_READ := 1919246692; PRU_WRITE := 2003986804;
     joints_fb_scale := [1]; joints_fb_type := [JOINT_FB_REL];
     vout_type := [VOUT_TYPE_OTHER]; vout_freq := [0];
     vout_min := [0]; vout_max := [10] |}.

(** Every call of the start-up succeeds; and all but [bcm2835_spi_begin],
    as when the component is not run as root. *)
Definition calls_succeed : startup :=
  {| hal_init_ok := true; hal_malloc_ok := true; rt_bcm2835_init_ok := true;
     bcm2835_spi_begin_ok := true; pin_export_ok := true;
     export_update_freq_ok := true; export_write_ok := true;
     export_read_ok := true |}.

Definition spi_begin_fails : startup :=
  {| hal_init_ok := true; hal_malloc_ok := true; rt_bcm2835_init_ok := true;
     bcm2835_spi_begin_ok := false; pin_export_ok := true;
     export_update_freq_ok := true; export_write_ok := true;
     export_read_ok := true |}.

(** The link enabled and reset raised, before the first [spi_read]. *)
Definition link_armed : state := host_write link_up (init board1 [true]).

(** * Properties *)

(** ** Comparisons *)

Lemma Qltb_true x y : Qltb x y = true ↔ x < y.
Proof.
  unfold Qltb. rewrite negb_true_iff, <- not_true_iff_false, Qle_bool_iff.
  split; [apply Qnot_le_lt | apply Qlt_not_le].
Qed.

Lemma Qltb_false x y : Qltb x y = false ↔ y <= x.
Proof. unfold Qltb. rewrite negb_false_iff. apply Qle_bool_iff. Qed.

Lemma Qgtb_true x y : Qgtb x y = true ↔ y < x.
Proof. apply Qltb_true. Qed.

Lemma Qgtb_false x y : Qgtb x y = false ↔ x <= y.
Proof. apply Qltb_false. Qed.

Lemma Qneb_true x y : Qneb x y = true ↔ ¬ x == y.
Proof.
  unfold Qneb. rewrite negb_true_iff, <- not_true_iff_false, Qeq_bool_iff.
  tauto.
Qed.

Lemma Qneb_false x y : Qneb x y = false ↔ x == y.
Proof. unfold Qneb. rewrite negb_false_iff. apply Qeq_bool_iff. Qed.

Lemma Qle_bool_false x y : Qle_bool x y = false ↔ y < x.
Proof.
  rewrite <- not_true_iff_false, Qle_bool_iff.
  split; [apply Qnot_le_lt | apply Qlt_not_le].
Qed.

(** Case analysis on the comparisons of a goal, each case with the order
    fact it stands for. *)
Ltac qcase :=
  match goal with
  | |- context [Qgtb ?a ?b] =>
      let H := fresh "Hc" in
      destruct (Qgtb a b) eqn:H;
      [apply Qgtb_true in H | apply Qgtb_false in H]
  | |- context [Qltb ?a ?b] =>
      let H := fresh "Hc" in
      destruct (Qltb a b) eqn:H;
      [apply Qltb_true in H | apply Qltb_false in H]
  | |- context [Qle_bool ?a ?b] =>
      let H := fresh "Hc" in
      destruct (Qle_bool a b) eqn:H;
      [apply Qle_bool_iff in H | apply Qle_bool_false in H]
  | |- context [Qneb ?a ?b] =>
      let H := fresh "Hc" in
      destruct (Qneb a b) eqn:H;
      [apply Qneb_true in H | apply Qneb_false in H]
  end.

Lemma Qabs_le_iff x m : Qabs x <= m ↔ - m <= x ∧ x <= m.
Proof. apply Qabs_Qle_condition. Qed.

(** ** Single precision *)

(** Powers of two. *)
Lemma pow2_pos k : 0 < pow2 k.
Proof. apply Qpower_0_lt. reflexivity. Qed.

Lemma pow2_add a b : pow2 (a + b) == pow2 a * pow2 b.
Proof. apply Qpower_plus. discriminate. Qed.

Lemma pow2_succ a : pow2 (a + 1) == 2 * pow2 a.
Proof. rewrite pow2_add. unfold pow2 at 2. rewrite Qpower_1_r. ring. Qed.

Lemma pow2_le a b : (a <= b)%Z → pow2 a <= pow2 b.
Proof. intros. apply Qpower_le_compat_l; [assumption | discriminate]. Qed.

Lemma pow2_lt_inv a b : pow2 a < pow2 b → (a < b)%Z.
Proof. intros. eapply Qpower_lt_compat_l_inv; [eassumption | reflexivity]. Qed.

Lemma pow2_Z n : (0 <= n)%Z → pow2 n == inject_Z (2 ^ n).
Proof. intros. unfold pow2. rewrite Zpower_Qpower by assumption. reflexivity. Qed.

Lemma ilog2_spec a : 0 < a → pow2 (ilog2 a) <= a ∧ a < pow2 (ilog2 a + 1).
Proof.
  intros Ha. destruct a as [n d]. unfold ilog2. cbn [Qnum Qden].
  assert (Hn : (0 < n)%Z) by (unfold Qlt in Ha; simpl in Ha; lia).
  set (ln := Z.log2 n). set (ld := Z.log2 (Z.pos d)).
  destruct (Z.log2_spec n Hn) as [Hn1 Hn2].
  destruct (Z.log2_spec (Z.pos d) eq_refl) as [Hd1 Hd2].
  fold ln in Hn1, Hn2. fold ld in Hd1, Hd2.
  assert (Hln : (0 <= ln)%Z) by apply Z.log2_nonneg.
  assert (Hld : (0 <= ld)%Z) by apply Z.log2_nonneg.
  assert (Hk : pow2 (ln - ld) * pow2 ld == pow2 ln).
  { rewrite <- pow2_add. replace (ln - ld + ld)%Z with ln by lia. reflexivity. }
  assert (Ea : (n # d) * inject_Z (Z.pos d) == inject_Z n).
  { unfold Qeq, Qmult, inject_Z; simpl. lia. }
  assert (Qn1 : pow2 ln <= inject_Z n).
  { rewrite pow2_Z by assumption. rewrite <- Zle_Qle. assumption. }
  assert (Qn2 : inject_Z n < 2 * pow2 ln).
  { rewrite <- pow2_succ, pow2_Z by lia. rewrite <- Zlt_Qlt. assumption. }
  assert (Qd1 : pow2 ld <= inject_Z (Z.pos d)).
  { rewrite pow2_Z by assumption. rewrite <- Zle_Qle. assumption. }
  assert (Qd2 : inject_Z (Z.pos d) < 2 * pow2 ld).
  { rewrite <- pow2_succ, pow2_Z by lia. rewrite <- Zlt_Qlt. assumption. }
  pose proof (pow2_pos (ln - ld)) as Pk. pose proof (pow2_pos ld) as Pd.
  set (K := pow2 (ln - ld)) in *. set (L := pow2 ld) in *.
  set (D := inject_Z (Z.pos d)) in *. set (N := inject_Z n) in *.
  set (a := n # d) in *.
  destruct (Qle_bool K a) eqn:Hc.
  - apply Qle_bool_iff in Hc. split; [exact Hc|].
    rewrite pow2_succ. fold K. nra.
  - assert (Hc' : a < K).
    { apply Qnot_le_lt. intros H. apply Qle_bool_iff in H. congruence. }
    split.
    + assert (E : pow2 (ln - ld - 1) * 2 == K).
      { unfold K. replace (ln - ld)%Z with (ln - ld - 1 + 1)%Z at 2 by lia.
        rewrite pow2_succ. ring. }
      set (K1 := pow2 (ln - ld - 1)) in *. nra.
    + replace (ln - ld - 1 + 1)%Z with (ln - ld)%Z by lia. exact Hc'.
Qed.

Lemma ilog2_lt a k : 0 < a → a < pow2 k → (ilog2 a < k)%Z.
Proof.
  intros Ha Hk. destruct (ilog2_spec a Ha) as [H1 _].
  apply pow2_lt_inv. lra.
Qed.

Lemma ilog2_ge a k : 0 < a → pow2 k <= a → (k <= ilog2 a)%Z.
Proof.
  intros Ha Hk. destruct (ilog2_spec a Ha) as [_ H2].
  assert (H : (k < ilog2 a + 1)%Z) by (apply pow2_lt_inv; lra). lia.
Qed.

(** Rounding to the nearest integer, ties to even. *)
Lemma round_even_floor y :
  (Qfloor y <= round_even y <= Qfloor y + 1)%Z.
Proof.
  unfold round_even. destruct (Qltb _ _); [lia|].
  destruct (Qltb _ _); [lia|]. destruct (Z.even _); lia.
Qed.

Lemma round_even_error y : Qabs (inject_Z (round_even y) - y) <= 1 # 2.
Proof.
  pose proof (Qfloor_le y) as H1. pose proof (Qlt_floor y) as H2.
  rewrite inject_Z_plus in H2. change (inject_Z 1) with 1 in H2.
  apply Qabs_Qle_condition. unfold round_even.
  set (f := Qfloor y) in *.
  destruct (Qltb (y - inject_Z f) (1 # 2)) eqn:Ha.
  { apply Qltb_true in Ha. split; lra. }
  apply Qltb_false in Ha.
  destruct (Qltb (1 # 2) (y - inject_Z f)) eqn:Hb.
  { apply Qltb_true in Hb. rewrite inject_Z_plus.
    change (inject_Z 1) with 1. split; lra. }
  apply Qltb_false in Hb.
  destruct (Z.even f);
    [|rewrite inject_Z_plus; change (inject_Z 1) with 1]; split; lra.
Qed.

Lemma round_even_Z y k : y == inject_Z k → round_even y = k.
Proof.
  intros E. unfold round_even.
  assert (Hf : Qfloor y = k) by (rewrite E; apply Qfloor_Z).
  rewrite Hf.
  assert (Ha : Qltb (y - inject_Z k) (1 # 2) = true) by (apply Qltb_true; lra).
  rewrite Ha. reflexivity.
Qed.

Lemma round_even_mono y z : y <= z → (round_even y <= round_even z)%Z.
Proof.
  intros Hyz. pose proof (Qfloor_resp_le _ _ Hyz) as Hf.
  destruct (Z.eq_dec (Qfloor y) (Qfloor z)) as [E|NE].
  - unfold round_even. rewrite <- E. set (f := Qfloor y) in *.
    destruct (Qltb (y - inject_Z f) (1 # 2)) eqn:Ha.
    { destruct (Qltb (z - _) _); [lia|].
      destruct (Qltb _ (z - _)); [lia|]. destruct (Z.even f); lia. }
    apply Qltb_false in Ha.
    assert (Hz : Qltb (z - inject_Z f) (1 # 2) = false)
      by (apply Qltb_false; lra).
    rewrite Hz.
    destruct (Qltb (1 # 2) (y - inject_Z f)) eqn:Hb.
    { apply Qltb_true in Hb.
      assert (Hz' : Qltb (1 # 2) (z - inject_Z f) = true)
        by (apply Qltb_true; lra).
      rewrite Hz'. lia. }
    destruct (Qltb (1 # 2) (z - inject_Z f)); [|lia].
    destruct (Z.even f); lia.
  - pose proof (round_even_floor y). pose proof (round_even_floor z). lia.
Qed.

Lemma round_even_le y k : y <= inject_Z k → (round_even y <= k)%Z.
Proof.
  intros H. rewrite <- (round_even_Z (inject_Z k) k) by reflexivity.
  apply round_even_mono, H.
Qed.

Lemma round_even_ge y k : inject_Z k <= y → (k <= round_even y)%Z.
Proof.
  intros H. rewrite <- (round_even_Z (inject_Z k) k) by reflexivity.
  apply round_even_mono, H.
Qed.

(** The magnitude. *)
Lemma float32_abs_unfold a :
  float32_abs a = inject_Z (round_even (a / ulp a)) * ulp a.
Proof. reflexivity. Qed.

Lemma ulp_pos a : 0 < ulp a.
Proof. apply pow2_pos. Qed.

Lemma scaled a : a / ulp a * ulp a == a.
Proof. field. pose proof (ulp_pos a). lra. Qed.

Lemma float32_abs_error a :
  Qabs (float32_abs a - a) <= ulp a * (1 # 2).
Proof.
  rewrite float32_abs_unfold.
  pose proof (round_even_error (a / ulp a)) as H.
  pose proof (ulp_pos a) as Hu. pose proof (scaled a) as Hs.
  apply Qabs_Qle_condition in H. apply Qabs_Qle_condition.
  set (m := inject_Z (round_even (a / ulp a))) in *.
  set (y := a / ulp a) in *. set (u := ulp a) in *.
  split; nra.
Qed.

Lemma float32_abs_nonneg a : 0 <= a → 0 <= float32_abs a.
Proof.
  intros Ha. rewrite float32_abs_unfold.
  apply Qmult_le_0_compat; [|apply Qlt_le_weak, ulp_pos].
  change 0 with (inject_Z 0). rewrite <- Zle_Qle.
  apply round_even_ge.
  apply Qle_shift_div_l; [apply ulp_pos|]. change (inject_Z 0) with 0. lra.
Qed.

(** The result stays within the binade of the argument. *)
Lemma float32_abs_upper a :
  0 < a → float32_abs a <= pow2 (exponent a + 1).
Proof.
  intros Ha. rewrite float32_abs_unfold.
  assert (E : pow2 (exponent a + 1) == inject_Z (2 ^ 24) * ulp a).
  { unfold ulp. rewrite <- pow2_Z by lia. rewrite <- pow2_add.
    replace (24 + (exponent a - 23))%Z with (exponent a + 1)%Z by lia.
    reflexivity. }
  rewrite E. apply Qmult_le_compat_r; [|apply Qlt_le_weak, ulp_pos].
  rewrite <- Zle_Qle. apply round_even_le.
  apply Qle_shift_div_r; [apply ulp_pos|]. rewrite <- E.
  destruct (ilog2_spec a Ha) as [_ H]. apply Qlt_le_weak.
  eapply Qlt_le_trans; [exact H|]. apply pow2_le. unfold exponent. lia.
Qed.

Lemma float32_abs_lower a :
  0 < a → (-126 <= ilog2 a)%Z → pow2 (ilog2 a) <= float32_abs a.
Proof.
  intros Ha He. rewrite float32_abs_unfold.
  assert (Hx : exponent a = ilog2 a) by (unfold exponent; lia).
  assert (E : pow2 (ilog2 a) == inject_Z (2 ^ 23) * ulp a).
  { unfold ulp. rewrite Hx. rewrite <- pow2_Z by lia. rewrite <- pow2_add.
    replace (23 + (ilog2 a - 23))%Z with (ilog2 a) by lia. reflexivity. }
  rewrite E. apply Qmult_le_compat_r; [|apply Qlt_le_weak, ulp_pos].
  rewrite <- Zle_Qle. apply round_even_ge.
  apply Qle_shift_div_l; [apply ulp_pos|]. rewrite <- E.
  apply (ilog2_spec a Ha).
Qed.

Lemma ilog2_mono a b : 0 < a → a <= b → (ilog2 a <= ilog2 b)%Z.
Proof.
  intros Ha Hab. apply ilog2_ge; [lra|].
  destruct (ilog2_spec a Ha) as [H _]. lra.
Qed.

Lemma float32_abs_mono a b :
  0 < a → a <= b → float32_abs a <= float32_abs b.
Proof.
  intros Ha Hab. assert (Hb : 0 < b) by lra.
  pose proof (ilog2_mono a b Ha Hab) as He.
  destruct (Z.eq_dec (exponent a) (exponent b)) as [E|NE].
  - rewrite !float32_abs_unfold. unfold ulp. rewrite <- E. fold (ulp a).
    apply Qmult_le_compat_r; [|apply Qlt_le_weak, ulp_pos].
    rewrite <- Zle_Qle. apply round_even_mono.
    apply Qmult_le_compat_r; [exact Hab|].
    apply Qlt_le_weak, Qinv_lt_0_compat, ulp_pos.
  - assert (Hlt : (exponent a < exponent b)%Z) by (unfold exponent in *; lia).
    assert (Hbn : (-126 <= ilog2 b)%Z) by (unfold exponent in *; lia).
    assert (Hxb : exponent b = ilog2 b) by (unfold exponent in *; lia).
    eapply Qle_trans; [apply float32_abs_upper, Ha|].
    eapply Qle_trans; [|apply float32_abs_lower; assumption].
    apply pow2_le. lia.
Qed.

Lemma pow2_le_inv a b : pow2 a <= pow2 b → (a <= b)%Z.
Proof. intros. eapply Qpower_le_compat_l_inv; [eassumption | reflexivity]. Qed.

Lemma significand_le a : 0 < a → (round_even (a / ulp a) <= 2 ^ 24)%Z.
Proof.
  intros Ha. apply round_even_le.
  apply Qle_shift_div_r; [apply ulp_pos|].
  assert (E : pow2 (exponent a + 1) == inject_Z (2 ^ 24) * ulp a).
  { unfold ulp. rewrite <- pow2_Z by lia. rewrite <- pow2_add.
    replace (24 + (exponent a - 23))%Z with (exponent a + 1)%Z by lia.
    reflexivity. }
  rewrite <- E. destruct (ilog2_spec a Ha) as [_ H]. apply Qlt_le_weak.
  eapply Qlt_le_trans; [exact H|]. apply pow2_le. unfold exponent. lia.
Qed.

Lemma Qdiv_eq_l y u k : 0 < u → y == k * u → y / u == k.
Proof. intros Hu E. rewrite E. field. lra. Qed.

(** A value on the grid of 24-bit significands is not changed. *)
Lemma float32_abs_fix y k s :
  0 < y → y == inject_Z k * pow2 s → (k <= 2 ^ 24)%Z → (-149 <= s)%Z →
  float32_abs y == y.
Proof.
  intros Hy E Hk Hs. rewrite float32_abs_unfold.
  assert (Hint : ∃ k', y / ulp y == inject_Z k').
  { destruct (Z_le_gt_dec (exponent y - 23) s) as [Hle|Hgt].
    - exists (k * 2 ^ (s - (exponent y - 23)))%Z.
      rewrite inject_Z_mult, <- pow2_Z by lia.
      apply Qdiv_eq_l; [apply ulp_pos|].
      unfold ulp. rewrite <- Qmult_assoc, <- pow2_add.
      replace (s - (exponent y - 23) + (exponent y - 23))%Z with s by lia.
      exact E.
    - assert (Hx : exponent y = ilog2 y) by (unfold exponent in *; lia).
      destruct (ilog2_spec y Hy) as [Hlo _].
      assert (Hle : pow2 (ilog2 y) <= pow2 (s + 24)).
      { eapply Qle_trans; [exact Hlo|]. rewrite E, Z.add_comm, pow2_add.
        apply Qmult_le_compat_r; [|apply Qlt_le_weak, pow2_pos].
        rewrite pow2_Z by lia. rewrite <- Zle_Qle. exact Hk. }
      apply pow2_le_inv in Hle.
      assert (He : ilog2 y = (s + 24)%Z) by lia.
      assert (Hk' : (2 ^ 24 <= k)%Z).
      { rewrite He, E, Z.add_comm, pow2_add in Hlo.
        rewrite Zle_Qle, <- pow2_Z by lia.
        pose proof (pow2_pos s). set (p := pow2 s) in *.
        set (q := pow2 24) in *. set (kk := inject_Z k) in *. nra. }
      exists (2 ^ 23)%Z.
      apply Qdiv_eq_l; [apply ulp_pos|].
      assert (k = 2 ^ 24)%Z as -> by lia.
      eapply Qeq_trans; [exact E|]. unfold ulp. rewrite Hx, He.
      replace (s + 24 - 23)%Z with (1 + s)%Z by lia. rewrite pow2_add.
      change (pow2 1) with 2. change (inject_Z (2 ^ 24)) with 16777216.
      change (inject_Z (2 ^ 23)) with 8388608. ring. }
  destruct Hint as [k' Hk'].
  rewrite (round_even_Z _ _ Hk'), <- Hk'. apply scaled.
Qed.

Lemma float32_abs_idem a :
  0 < a → 0 < float32_abs a → float32_abs (float32_abs a) == float32_abs a.
Proof.
  intros Ha Hy.
  apply (float32_abs_fix _ (round_even (a / ulp a)) (exponent a - 23)).
  - exact Hy.
  - reflexivity.
  - apply significand_le, Ha.
  - unfold exponent. lia.
Qed.

Lemma float32_abs_comp a b :
  0 < a → a == b → float32_abs a == float32_abs b.
Proof.
  intros Ha E. apply Qle_antisym; apply float32_abs_mono; lra.
Qed.

(** The laws of [float32]: it respects equality of rationals, is odd,
    monotone and idempotent, and moves a value by half a unit in the last
    place at most. *)
Lemma float32_comp x y : x == y → float32 x = float32 y.
Proof. intros E. unfold float32. rewrite (Qred_complete x y E). reflexivity. Qed.

Lemma float32_0 x : x == 0 → float32 x = 0.
Proof.
  intros E. rewrite (float32_comp x 0 E). reflexivity.
Qed.

Lemma float32_of_pos x : 0 < x → float32 x == float32_abs x.
Proof.
  intros Hx. unfold float32. pose proof (Qred_correct x) as E.
  destruct (Qeq_bool (Qred x) 0) eqn:Hz.
  { apply Qeq_bool_iff in Hz. lra. }
  destruct (Qltb (Qred x) 0) eqn:Hn.
  { apply Qltb_true in Hn. lra. }
  rewrite Qred_correct. apply float32_abs_comp; lra.
Qed.

Lemma float32_of_neg x : x < 0 → float32 x == - float32_abs (- x).
Proof.
  intros Hx. unfold float32. pose proof (Qred_correct x) as E.
  destruct (Qeq_bool (Qred x) 0) eqn:Hz.
  { apply Qeq_bool_iff in Hz. lra. }
  destruct (Qltb (Qred x) 0) eqn:Hn.
  - rewrite Qred_correct. apply Qopp_comp. apply float32_abs_comp; lra.
  - apply Qltb_false in Hn. lra.
Qed.

Lemma float32_opp x : float32 (- x) == - float32 x.
Proof.
  destruct (Q_dec x 0) as [[Hx|Hx]|Hx].
  - rewrite (float32_of_neg x Hx), float32_of_pos by lra. ring.
  - rewrite (float32_of_pos x Hx), float32_of_neg by lra.
    apply Qopp_comp, float32_abs_comp; [lra | ring].
  - rewrite (float32_0 x Hx), (float32_0 (- x)) by lra. reflexivity.
Qed.

Lemma float32_nonneg x : 0 <= x → 0 <= float32 x.
Proof.
  intros Hx. destruct (Qeq_dec x 0) as [E|NE].
  - rewrite (float32_0 x E). lra.
  - assert (Hp : 0 < x) by (apply Qnot_le_lt; intros Hle; apply NE; lra).
    rewrite (float32_of_pos x Hp). apply float32_abs_nonneg, Hx.
Qed.



Lemma float32_idem x : float32 (float32 x) == float32 x.
Proof.
  assert (Hpos : ∀ a, 0 < a → float32 (float32 a) == float32 a).
  { intros a Ha. pose proof (float32_nonneg a (Qlt_le_weak _ _ Ha)) as H0.
    destruct (Qeq_dec (float32 a) 0) as [E|NE].
    - rewrite (float32_0 _ E). symmetry. exact E.
    - assert (Hp : 0 < float32 a).
      { apply Qnot_le_lt. intros Hle. apply NE. lra. }
      rewrite (float32_of_pos (float32 a) Hp).
      pose proof (float32_of_pos a Ha) as E.
      rewrite (float32_abs_comp _ _ Hp E), E.
      apply float32_abs_idem; lra. }
  destruct (Q_dec x 0) as [[Hx|Hx]|Hx].
  - pose proof (Hpos (- x) ltac:(lra)) as H.
    rewrite (float32_comp _ _ (float32_opp x)), !float32_opp in H. lra.
  - apply Hpos, Hx.
  - rewrite (float32_0 x Hx). reflexivity.
Qed.

Lemma half_ulp_le a : 0 < a → ulp a * (1 # 2) <= float32_slack a.
Proof.
  intros Ha. unfold float32_slack, ulp.
  rewrite (Qabs_pos a) by lra.
  pose proof (pow2_pos (-150)).
  destruct (Z_le_gt_dec (-126) (ilog2 a)) as [Hn|Hs].
  - assert (E : pow2 (exponent a - 23) * (1 # 2)
                == pow2 (ilog2 a) * (1 # 16777216)).
    { unfold exponent. replace (Z.max (ilog2 a) (-126)) with (ilog2 a) by lia.
      replace (ilog2 a - 23)%Z with (ilog2 a + (-23))%Z by lia.
      rewrite pow2_add. change (pow2 (-23)) with (1 # 8388608).
      field. }
    rewrite E. destruct (ilog2_spec a Ha) as [Hlo _]. lra.
  - assert (E : pow2 (exponent a - 23) * (1 # 2) == pow2 (-150)).
    { unfold exponent. replace (Z.max (ilog2 a) (-126)) with (-126)%Z by lia.
      reflexivity. }
    rewrite E. lra.
Qed.

Lemma float32_error x : Qabs (float32 x - x) <= float32_slack x.
Proof.
  destruct (Q_dec x 0) as [[Hx|Hx]|Hx].
  - rewrite (float32_of_neg x Hx).
    pose proof (float32_abs_error (- x)) as H.
    pose proof (half_ulp_le (- x) ltac:(lra)) as H1.
    unfold float32_slack in *. rewrite Qabs_opp in H1.
    apply Qabs_Qle_condition in H. apply Qabs_Qle_condition. split; lra.
  - rewrite (float32_of_pos x Hx).
    eapply Qle_trans; [apply float32_abs_error | apply half_ulp_le, Hx].
  - rewrite (float32_0 x Hx). unfold float32_slack.
    pose proof (Qabs_nonneg x). pose proof (pow2_pos (-150)).
    apply Qabs_Qle_condition. split; lra.
Qed.


Lemma float32_slack_nonneg x : 0 <= float32_slack x.
Proof.
  unfold float32_slack. pose proof (Qabs_nonneg x).
  pose proof (pow2_pos (-150)). lra.
Qed.

(** ** The limiter *)


Lemma slew_step vel f d : 0 <= d → Qabs (slew vel f d - f) <= d.
Proof.
  intros Hd. apply Qabs_le_iff. unfold slew.
  repeat qcase; simpl; lra.
Qed.


Lemma slew_between vel f d :
  0 <= d →
  (f <= vel → f <= slew vel f d ∧ slew vel f d <= vel)
  ∧ (vel <= f → vel <= slew vel f d ∧ slew vel f d <= f)
  ∧ (Qabs (vel - f) <= d → slew vel f d = vel)
  ∧ (d < vel - f → slew vel f d = f + d)
  ∧ (d < f - vel → slew vel f d = f - d).
Proof.
  intros Hd. unfold slew. rewrite Qabs_le_iff.
  repeat qcase; repeat split; intros; try reflexivity; lra.
Qed.

Lemma fabs_nonneg x : 0 <= fabs x.
Proof. apply Qabs_nonneg. Qed.

Lemma limit_freq_nonneg cfg mv scale :
  0 <= PRU_BASEFREQ cfg → 0 <= snd (limit_freq cfg mv scale).
Proof.
  intros Hb. unfold limit_freq.
  assert (0 <= PRU_BASEFREQ cfg / 2) by (apply Qle_shift_div_l; lra).
  repeat qcase; simpl; try lra.
  apply Qmult_le_0_compat; [lra | apply fabs_nonneg].
Qed.

Lemma limit_accel_nonneg mf rdt ma scale :
  0 <= mf → 0 <= rdt → 0 <= snd (limit_accel mf rdt ma scale).
Proof.
  intros Hf Hr. unfold limit_accel.
  assert (0 <= mf * rdt) by (apply Qmult_le_0_compat; lra).
  repeat qcase; simpl; try lra.
  apply Qmult_le_0_compat; [lra | apply fabs_nonneg].
Qed.

(** ** What holds in every reachable state *)

Ltac unfold_update_joint :=
  unfold update_joint;
  let E1 := fresh "Escale" in
  let E2 := fresh "Efreq" in
  let E3 := fresh "Eaccel" in
  match goal with
  | |- context [check_scale ?c ?j] =>
      destruct (check_scale c j) as [[?scale ?oscale] ?recip] eqn:E1
  end;
  match goal with
  | |- context [limit_freq ?c ?m ?s] =>
      destruct (limit_freq c m s) as [?mvel ?mfreq] eqn:E2
  end;
  match goal with
  | |- context [limit_accel ?f ?r ?m ?s] =>
      destruct (limit_accel f r m s) as [?macc ?mac] eqn:E3
  end;
  cbn [fst snd].

Lemma update_joint_ok cfg pr d rd e0 j :
  joint_ok j → joint_ok (fst (update_joint cfg pr d rd e0 j)).
Proof. intros [? ?]. unfold_update_joint. split; simpl; auto. Qed.

Lemma read_joint_ok cfg i raw j :
  joint_ok j → joint_ok (fst (read_joint cfg i raw j)).
Proof.
  intros [? ?]. unfold read_joint.
  destruct (joints_fb_type cfg !!! i); split; simpl; auto.
Qed.

Lemma host_joint_ok x j : joint_ok j → joint_ok (host_joint x j).
Proof.
  intros [? ?]. split; simpl; auto.
  destruct (stepperEnable j); simpl; congruence.
Qed.

Lemma Forall_imap_same {A} (P : A → Prop) (f : nat → A → A) (l : list A) :
  (∀ i x, P x → P (f i x)) → Forall P l → Forall P (imap f l).
Proof.
  intros Hf. revert f Hf. induction l as [|x l IH]; intros f Hf Hl; simpl.
  - constructor.
  - inversion Hl; subst. constructor; [auto|]. apply IH; auto.
    intros i y. apply Hf.
Qed.

Lemma wf_init cfg ctrl : wf (init cfg ctrl).
Proof.
  split; simpl.
  - apply Forall_fmap, Forall_forall. intros i _. split; simpl; congruence.
  - reflexivity.
  - reflexivity.
Qed.

Lemma wf_host_write h s : wf s → wf (host_write h s).
Proof.
  intros [Hj Hd Hr]. split; simpl; auto.
  apply Forall_imap_same; auto.
  intros i j Hok. destruct (in_joints h !! i); simpl; auto using host_joint_ok.
Qed.

Lemma wf_set_period p s : wf s → wf (set_period p s).
Proof. intros [Hj Hd Hr]. split; simpl; auto; reflexivity. Qed.

Lemma wf_update_freq cfg period s : wf s → wf (update_freq cfg period s).
Proof.
  intros Hwf. unfold update_freq.
  set (s1 := if negb (period =? old_dtns s)%Z then set_period period s else s).
  assert (Hwf1 : wf s1).
  { subst s1. destruct (negb _); auto using wf_set_period. }
  destruct Hwf1 as [Hj Hd Hr]. split; simpl; auto.
  apply Forall_fmap. eapply Forall_impl; [exact Hj|].
  intros j Hok. apply update_joint_ok, Hok.
Qed.

Lemma wf_spi_write cfg resp s : wf s → wf (spi_write cfg resp s).
Proof.
  intros [Hj Hd Hr]. unfold spi_write.
  destruct (SPIstatus (data s)); split; simpl; auto.
Qed.

Lemma wf_decode cfg s : wf s → wf (decode cfg s).
Proof.
  intros [Hj Hd Hr]. split; simpl; auto.
  apply Forall_imap_same; auto.
  intros i j Hok. apply read_joint_ok, Hok.
Qed.

Lemma wf_spi_read cfg resp s : wf s → wf (spi_read cfg resp s).
Proof.
  intros Hwf. unfold spi_read.
  set (s0 := set_txData _ s).
  assert (Hwf0 : wf s0) by (destruct Hwf; split; simpl; auto).
  clearbody s0.
  assert (Hstep : ∀ s', wf s' →
            wf (set_data (set_SPIresetOld (SPIreset (data s')) (data s')) s')).
  { intros s' [? ? ?]. split; simpl; auto. }
  apply Hstep.
  destruct (SPIenable (data s0)); [|destruct Hwf0; split; simpl; auto].
  destruct (attempt (data s0)); [|assumption].
  assert (Hwf2 : wf (spi_transfer resp s0))
    by (destruct Hwf0; split; simpl; auto).
  destruct (rx_header (rxData (spi_transfer resp s0)) =? PRU_DATA cfg)%Z.
  { apply wf_decode, Hwf2. }
  destruct (rx_header (rxData (spi_transfer resp s0)) =? PRU_ESTOP cfg)%Z;
    destruct Hwf2; split; simpl; auto.
Qed.

Create HintDb rio discriminated.
#[local] Hint Resolve wf_host_write wf_update_freq wf_spi_write wf_spi_read
  : rio.

Lemma wf_exec cfg c s : wf s → wf (exec cfg c s).
Proof. destruct c; simpl; auto with rio. Qed.

Lemma wf_run cfg cs s : wf s → wf (run cfg cs s).
Proof.
  revert s. induction cs as [|c cs IH]; intros s Hwf; simpl; auto.
  apply IH, wf_exec, Hwf.
Qed.

Lemma reachable_wf cfg ctrl s : reachable cfg ctrl s → wf s.
Proof. intros [cs ->]. apply wf_run, wf_init. Qed.

Lemma run_app cfg cs1 cs2 s :
  run cfg (cs1 ++ cs2) s = run cfg cs2 (run cfg cs1 s).
Proof. apply foldl_app. Qed.

Lemma reachable_init cfg ctrl : reachable cfg ctrl (init cfg ctrl).
Proof. exists []. reflexivity. Qed.

Lemma reachable_exec cfg ctrl c s :
  reachable cfg ctrl s → reachable cfg ctrl (exec cfg c s).
Proof.
  intros [cs ->]. exists (cs ++ [c]). rewrite run_app. reflexivity.
Qed.

(** ** update_freq, one joint at a time *)

Lemma tick_state_joints period s :
  joints (data (tick_state period s)) = joints (data s).
Proof. unfold tick_state. destruct (negb _); reflexivity. Qed.

Lemma tick_state_dt period s :
  wf s → dt (tick_state period s) == inject_Z period * 0.000000001.
Proof.
  intros Hwf. unfold tick_state.
  destruct (Z.eqb_spec period (old_dtns s)) as [->|]; simpl.
  - apply Hwf.
  - reflexivity.
Qed.

Lemma tick_state_recip period s :
  wf s →
  recip_dt (tick_state period s) == 1 / (inject_Z period * 0.000000001).
Proof.
  intros Hwf. unfold tick_state.
  destruct (Z.eqb_spec period (old_dtns s)) as [->|]; simpl.
  - rewrite (wf_recip _ Hwf), (wf_dt _ Hwf). reflexivity.
  - reflexivity.
Qed.

Lemma period_seconds_pos period :
  (0 < period)%Z → 0 < inject_Z period * 0.000000001.
Proof.
  intros Hp. apply Qmult_lt_0_compat; [|reflexivity].
  unfold Qlt; simpl. lia.
Qed.

Lemma period_recip_pos period :
  (0 < period)%Z → 0 < 1 / (inject_Z period * 0.000000001).
Proof.
  intros Hp. apply Qlt_shift_div_l; [apply period_seconds_pos, Hp | lra].
Qed.

Lemma update_freq_lookup cfg period s i j :
  joints (data s) !! i = Some j →
  joints (data (update_freq cfg period s)) !! i
    = Some (fst (tick_joint cfg period s j))
  ∧ update_freq_locals cfg period s i = Some (snd (tick_joint cfg period s j)).
Proof.
  intros Hj. unfold update_freq, update_freq_locals, tick_joint.
  fold (tick_state period s). rewrite tick_state_joints. simpl.
  rewrite !list_lookup_fmap, Hj. split; reflexivity.
Qed.

(** In a reachable state the pin pointers exist, so the test of line 684
    fails whatever the enable pins hold. *)
Lemma enable_test_created s i j :
  wf s → joints (data s) !! i = Some j →
  enable_test (head (joints (data s)) ≫= stepperEnable) = false.
Proof.
  intros Hwf Hj. destruct (joints (data s)) as [|j0 js] eqn:E.
  - discriminate.
  - pose proof (wf_joints _ Hwf) as Hall. rewrite E in Hall.
    inversion Hall as [|? ? [Hen _] _]; subst. simpl.
    destruct (stepperEnable j0); [reflexivity | congruence].
Qed.


Lemma check_scale_keeps cfg j :
  1e-20 <= pos_scale j → fst (fst (check_scale cfg j)) = pos_scale j.
Proof.
  intros Hs. unfold check_scale. destruct (Qneb _ _); [|reflexivity].
  destruct (Qltb (pos_scale j) 1e-20) eqn:Hc; [|reflexivity].
  apply Qltb_true in Hc. lra.
Qed.

(** ** The limits update_freq computes *)

Lemma limit_freq_le_base cfg mv scale :
  0 <= PRU_BASEFREQ cfg → snd (limit_freq cfg mv scale) <= PRU_BASEFREQ cfg / 2.
Proof.
  intros Hb. unfold limit_freq. repeat qcase; simpl; lra.
Qed.

Lemma limit_accel_le mf rdt ma scale :
  snd (limit_accel mf rdt ma scale) <= mf * rdt.
Proof. unfold limit_accel. repeat qcase; simpl; lra. Qed.

Lemma recip_times_dt period :
  (0 < period)%Z →
  1 / (inject_Z period * 0.000000001) * (inject_Z period * 0.000000001) == 1.
Proof.
  intros Hp. pose proof (period_seconds_pos period Hp).
  field. lra.
Qed.

Lemma tick_joint_limits cfg period s j :
  wf s → (0 < period)%Z → 0 <= PRU_BASEFREQ cfg →
  0 <= max_freq (snd (tick_joint cfg period s j))
  ∧ max_freq (snd (tick_joint cfg period s j)) <= PRU_BASEFREQ cfg / 2
  ∧ 0 <= max_ac (snd (tick_joint cfg period s j))
  ∧ 0 <= dv (snd (tick_joint cfg period s j))
  ∧ dv (snd (tick_joint cfg period s j))
    <= max_freq (snd (tick_joint cfg period s j)).
Proof.
  intros Hwf Hp Hbase. unfold tick_joint.
  pose proof (tick_state_dt period s Hwf) as Hdt.
  pose proof (tick_state_recip period s Hwf) as Hrdt.
  pose proof (period_seconds_pos period Hp) as Hpos.
  pose proof (period_recip_pos period Hp) as Hrpos.
  pose proof (recip_times_dt period Hp) as Hone.
  set (dt1 := dt (tick_state period s)) in *.
  set (rdt1 := recip_dt (tick_state period s)) in *.
  unfold_update_joint. cbn [max_freq max_ac dv].
  assert (Hmf : 0 <= mfreq).
  { replace mfreq with (snd (limit_freq cfg (maxvel j) scale))
      by (rewrite Efreq; reflexivity).
    apply limit_freq_nonneg, Hbase. }
  assert (Hmf2 : mfreq <= PRU_BASEFREQ cfg / 2).
  { replace mfreq with (snd (limit_freq cfg (maxvel j) scale))
      by (rewrite Efreq; reflexivity).
    apply limit_freq_le_base, Hbase. }
  assert (Hma : 0 <= mac).
  { replace mac with (snd (limit_accel mfreq rdt1 (maxaccel j) scale))
      by (rewrite Eaccel; reflexivity).
    apply limit_accel_nonneg; [exact Hmf | rewrite Hrdt; lra]. }
  assert (Hma2 : mac <= mfreq * rdt1).
  { replace mac with (snd (limit_accel mfreq rdt1 (maxaccel j) scale))
      by (rewrite Eaccel; reflexivity).
    apply limit_accel_le. }
  assert (Hdt0 : 0 <= dt1) by (rewrite Hdt; lra).
  repeat split; auto.
  - apply Qmult_le_0_compat; assumption.
  - apply Qle_trans with (mfreq * rdt1 * dt1).
    + apply Qmult_le_compat_r; assumption.
    + rewrite Hdt, Hrdt, <- Qmult_assoc, Hone. lra.
Qed.

(** ** What the host cannot change *)

(** An invariant of the joints that the host writes and the feedback
    decoder keep is kept by every call but [update_freq]. *)
Lemma exec_joints_kept (P : joint → Prop) cfg c s :
  (∀ x j, P j → P (host_joint x j)) →
  (∀ i raw j, P j → P (fst (read_joint cfg i raw j))) →
  (∀ period, c ≠ Update_freq period) →
  Forall P (joints (data s)) → Forall P (joints (data (exec cfg c s))).
Proof.
  intros Hhost Hread Hc Hall. destruct c; cbn [exec].
  - cbn [host_write set_data data joints]. apply Forall_imap_same; auto.
    intros i j Hok. destruct (in_joints h !! i); simpl; auto.
  - destruct (Hc period eq_refl).
  - unfold spi_write. destruct (SPIstatus (data s)); exact Hall.
  - unfold spi_read. cbn [data set_txData].
    destruct (SPIenable (data s)); [|exact Hall].
    destruct (attempt (data s)); [|exact Hall].
    cbn [spi_transfer rxData rx_header].
    destruct (rx_header resp =? PRU_DATA cfg)%Z.
    + cbn. apply Forall_imap_same; auto.
    + destruct (rx_header resp =? PRU_ESTOP cfg)%Z; exact Hall.
Qed.

Lemma limit_freq_unset cfg scale :
  limit_freq cfg 0 scale = (0, PRU_BASEFREQ cfg / 2).
Proof. reflexivity. Qed.

Lemma update_joint_stored cfg pr d rd e0 j :
  stored_ok j → stored_ok (fst (update_joint cfg pr d rd e0 j)).
Proof.
  intros [Hm Hf]. unfold update_joint. rewrite Hm.
  destruct (check_scale cfg j) as [[scale oscale] recip].
  rewrite limit_freq_unset.
  destruct (limit_accel _ _ _ _) as [macc mac].
  split; cbn [fst maxvel freq]; [reflexivity | apply float32_idem].
Qed.

Lemma read_joint_stored cfg i raw j :
  stored_ok j → stored_ok (fst (read_joint cfg i raw j)).
Proof.
  intros Hok. unfold read_joint. destruct (joints_fb_type cfg !!! i); exact Hok.
Qed.

Lemma host_joint_stored x j : stored_ok j → stored_ok (host_joint x j).
Proof. intros Hok. exact Hok. Qed.

Lemma update_freq_joints cfg period s :
  joints (data (update_freq cfg period s))
  = (λ j, fst (update_joint cfg (1 / (inject_Z period * 0.000000001))
                 (dt (tick_state period s)) (recip_dt (tick_state period s))
                 (head (joints (data s)) ≫= stepperEnable) j))
      <$> joints (data s).
Proof.
  unfold update_freq. fold (tick_state period s).
  cbn [set_data data set_joints joints]. rewrite tick_state_joints.
  reflexivity.
Qed.

Lemma exec_stored cfg c s :
  Forall stored_ok (joints (data s)) →
  Forall stored_ok (joints (data (exec cfg c s))).
Proof.
  intros Hall. destruct c;
    try (apply exec_joints_kept;
         [apply host_joint_stored | apply read_joint_stored
          | discriminate | exact Hall]).
  cbn [exec]. rewrite update_freq_joints.
  apply Forall_fmap. eapply Forall_impl; [exact Hall|].
  intros j Hok. apply update_joint_stored, Hok.
Qed.

(** [maxvel] stays 0 and the stored frequency a [float] on every run. *)
Lemma reachable_stored cfg ctrl s i j :
  reachable cfg ctrl s → joints (data s) !! i = Some j → stored_ok j.
Proof.
  intros [cs ->] Hj.
  assert (Hall : Forall stored_ok (joints (data (run cfg cs (init cfg ctrl))))).
  { clear Hj. induction cs as [|c cs IH] using rev_ind.
    - simpl. apply Forall_fmap, Forall_forall. intros k _. split; reflexivity.
    - rewrite run_app. cbn [run foldl]. apply exec_stored, IH. }
  rewrite Forall_lookup in Hall. exact (Hall i j Hj).
Qed.

(** ** The claims on update_freq *)

(** C1 (as the code has it).  Joint 0 is in velocity mode, its enable pin is
    low and its velocity command is 1: after [update_freq] the published
    frequency command is 0.001 in single precision, not 0.  Line 684 tests
    the pin pointer of joint 0 against null instead of reading the enable
    pin of joint [i]. *)
Example disabled_joint_frequency_not_zero :
  ∃ j, joints (data (run board1 [Host (host1 disabled_moving);
                                  Update_freq 1000000]
                       (init board1 [false]))) !! 0%nat = Some j
       ∧ stepperEnable j = Some false
       ∧ freq_cmd j == float32 0.001
       ∧ freq_cmd j == 0.001000000047497451305389404296875
       ∧ ¬ freq_cmd j == 0.
Proof.
  eexists. split; [vm_compute; reflexivity|].
  split; [reflexivity|]. split; [reflexivity|].
  split; [reflexivity | discriminate].
Qed.

(** C2 (amended).  When [maxvel] is at most 0, [update_freq] stores 0 in it
    and leaves the frequency ceiling at [PRU_BASEFREQ / 2]: the parameter
    then sets no limit of its own. *)
Theorem maxvel_nonpositive_no_limit cfg period s i j :
  joints (data s) !! i = Some j →
  maxvel j <= 0 →
  ∃ j' l,
    joints (data (update_freq cfg period s)) !! i = Some j'
    ∧ update_freq_locals cfg period s i = Some l
    ∧ maxvel j' == 0
    ∧ max_freq l == PRU_BASEFREQ cfg / 2.
Proof.
  intros Hj Hmv.
  destruct (update_freq_lookup cfg period s i j Hj) as [Hj' Hl].
  eexists _, _. split; [exact Hj'|]. split; [exact Hl|].
  unfold tick_joint. unfold_update_joint. cbn [maxvel max_freq].
  unfold limit_freq in Efreq.
  apply Qle_bool_iff in Hmv. rewrite Hmv in Efreq.
  injection Efreq as <- <-. split; reflexivity.
Qed.

Lemma maxvel_nonpositive_no_limit_witness :
  ∃ j' l,
    joints (data (update_freq board1 1000000
                    (host_write (host1 maxvel_unset) (init board1 [false]))))
      !! 0%nat = Some j'
    ∧ update_freq_locals board1 1000000
        (host_write (host1 maxvel_unset) (init board1 [false])) 0 = Some l
    ∧ maxvel j' == 0
    ∧ max_freq l == PRU_BASEFREQ board1 / 2.
Proof.
  apply (maxvel_nonpositive_no_limit board1 1000000
           (host_write (host1 maxvel_unset) (init board1 [false])) 0
           (host_joint maxvel_unset (init_joint false))).
  - reflexivity.
  - discriminate.
Defined.

(** C2 as stated fails: with [maxvel] at 0, where it is from the start, a
    velocity command of 1 is published as the frequency command 1. *)
Example maxvel_nonpositive_still_moves :
  ∃ j j',
    joints (data (host_write (host1 maxvel_unset) (init board1 [false])))
      !! 0%nat = Some j
    ∧ joints (data (update_freq board1 1000000
                      (host_write (host1 maxvel_unset)
                         (init board1 [false])))) !! 0%nat = Some j'
    ∧ maxvel j <= 0 ∧ maxvel j' == 0
    ∧ freq_cmd j' == 1 ∧ ¬ freq_cmd j' == 0.
Proof.
  eexists _, _. split; [reflexivity|]. split; [vm_compute; reflexivity|].
  repeat split; discriminate.
Qed.

Lemma float32_1 : float32 1 = 1.
Proof. reflexivity. Qed.

Lemma deadband_of_unset pin scale :
  pin == 0 → ¬ scale == 0 → deadband_of pin scale = Some (float32 (1 / scale)).
Proof.
  intros Hp Hs. unfold deadband_of.
  apply Qneb_false in Hp. rewrite Hp.
  destruct (Qeq_bool scale 0) eqn:E; [|reflexivity].
  apply Qeq_bool_iff in E. contradiction.
Qed.

(** C3 (amended).  Position mode, [scale = 1000], [pgain = 1], [ff1gain = 0],
    [deadband = 0], feedback 0, previous command 0, command 1, on a run of
    the component and with a positive period.  The pins that hold 0 select
    their defaults: the deadband is [1 / scale] as a [float],
    0.001000000047..., and [ff1gain] is 1.  So the error is 1 before the
    deadband and 0.998999999952... after it; the command derivative is
    [1 / period] stored in single precision, and the control law gives the
    error plus that derivative.  The ceiling is [PRU_BASEFREQ / 2], the
    target is the control-law output times 1000 where that is within the
    ceiling, else the ceiling.  The new frequency is the target when that is
    within [dv = max_ac * period] of the previous one, else the previous one
    moved by [dv] towards it, and what is published is the new frequency
    stored in single precision: it differs from the previous one by at most
    [max_ac * period] and half a unit in the last place. *)
Theorem position_step_scenario cfg ctrl period s i j :
  reachable cfg ctrl s →
  (0 < period)%Z →
  0 <= PRU_BASEFREQ cfg → PRU_BASEFREQ cfg / 2 <= FLT_MAX →
  joints (data s) !! i = Some j →
  pos_mode j = true →
  pos_scale j == 1000 → pgain j == 1 → ff1gain j == 0 → deadband j == 0 →
  pos_fb j == 0 → pos_cmd j == 1 → prev_cmd j == 0 →
  ∃ j' l,
    joints (data (update_freq cfg period s)) !! i = Some j'
    ∧ update_freq_locals cfg period s i = Some l
    ∧ error0 l == 1
    ∧ band l = Some (float32 0.001)
    ∧ error l == 0.998999999952502548694610595703125
    ∧ cmd_d j' == float32 (1 / (inject_Z period * 0.000000001))
    ∧ Qabs (cmd_d j' - 1 / (inject_Z period * 0.000000001))
        <= float32_slack (1 / (inject_Z period * 0.000000001))
    ∧ vel_law l == 0.998999999952502548694610595703125 + cmd_d j'
    ∧ max_freq l == PRU_BASEFREQ cfg / 2
    ∧ (vel_law l * 1000 <= max_freq l → vel_target l == vel_law l * 1000)
    ∧ (max_freq l <= vel_law l * 1000 → vel_target l == max_freq l)
    ∧ dv l == max_ac l * (inject_Z period * 0.000000001)
    ∧ (Qabs (vel_target l - freq_cmd j) <= dv l → new_vel l == vel_target l)
    ∧ (dv l < vel_target l - freq_cmd j → new_vel l == freq_cmd j + dv l)
    ∧ (dv l < freq_cmd j - vel_target l → new_vel l == freq_cmd j - dv l)
    ∧ freq_cmd j' == float32 (new_vel l)
    ∧ Qabs (freq_cmd j' - freq_cmd j)
        <= max_ac l * (inject_Z period * 0.000000001)
           + float32_slack (new_vel l).
Proof.
  intros Hreach Hp Hbase Hrange Hj Hmode Hscale Hpg Hff Hdb Hfb Hcmd Hprev.
  pose proof (reachable_wf _ _ _ Hreach) as Hwf.
  destruct (reachable_stored _ _ _ _ _ Hreach Hj) as [Hmv _].
  destruct (update_freq_lookup cfg period s i j Hj) as [Hj' Hl].
  eexists _, _. split; [exact Hj'|]. split; [exact Hl|].
  clear Hj' Hl.
  assert (Hfc : freq_cmd j = freq j).
  { pose proof (wf_joints _ Hwf) as Hall.
    rewrite Forall_lookup in Hall. apply (Hall i j Hj). }
  destruct (tick_joint_limits cfg period s j Hwf Hp Hbase)
    as (Hmf0 & _ & Hma0 & Hdv0 & _).
  revert Hmf0 Hma0 Hdv0. unfold tick_joint.
  pose proof (enable_test_created s i j Hwf Hj) as Hen.
  pose proof (tick_state_dt period s Hwf) as Hdt.
  pose proof (period_recip_pos period Hp) as Hrpos.
  assert (Hsc : fst (fst (check_scale cfg j)) = pos_scale j).
  { apply check_scale_keeps. rewrite Hscale. discriminate. }
  set (pr := 1 / (inject_Z period * 0.000000001)) in *.
  set (dt1 := dt (tick_state period s)) in *.
  unfold_update_joint. rewrite Hen, Hmode. simpl in Hsc. subst scale.
  rewrite Hmv, limit_freq_unset in Efreq. injection Efreq as <- <-.
  cbn [error0 error band vel_law vel_target pos_scale freq_cmd dv max_freq
       max_ac new_vel cmd_d].
  intros Hmf0 Hma0 Hdv0.
  assert (Hband : deadband_of (deadband j) (pos_scale j)
                  = Some (float32 0.001)).
  { rewrite deadband_of_unset; [|exact Hdb | rewrite Hscale; discriminate].
    f_equal. apply float32_comp. rewrite Hscale. reflexivity. }
  rewrite Hband. cbn [deadband_error].
  assert (Hpg' : float32 (pin_or (pgain j) 1) = 1).
  { rewrite <- float32_1. apply float32_comp. unfold pin_or.
    destruct (Qneb (pgain j) 0); [exact Hpg | reflexivity]. }
  assert (Hff' : float32 (pin_or (ff1gain j) 1) = 1).
  { unfold pin_or. apply Qneb_false in Hff. rewrite Hff. reflexivity. }
  rewrite Hpg', Hff'.
  assert (Hd : float32 ((pos_cmd j - prev_cmd j) * pr) = float32 pr).
  { apply float32_comp. rewrite Hcmd, Hprev. ring. }
  rewrite Hd.
  assert (Hff1 : float32 (float32 pr * 1) == float32 pr).
  { rewrite (float32_comp (float32 pr * 1) (float32 pr)) by ring.
    apply float32_idem. }
  assert (Herr : apply_deadband (pos_cmd j - pos_fb j) (float32 0.001)
                 == 0.998999999952502548694610595703125).
  { change (float32 0.001) with (8589935 # 8589934592).
    unfold apply_deadband. repeat qcase; lra. }
  pose proof (float32_nonneg pr (Qlt_le_weak _ _ Hrpos)) as Hd0.
  set (e := apply_deadband (pos_cmd j - pos_fb j) (float32 0.001)) in *.
  set (c := float32 pr) in *.
  set (v := 1 * e + float32 (c * 1)) in *.
  assert (Hv : v == 0.998999999952502548694610595703125 + c).
  { subst v. rewrite Hff1, Herr. ring. }
  set (m := PRU_BASEFREQ cfg / 2) in *.
  set (t := clamp_freq (v * pos_scale j) m) in *.
  set (n := slew t (freq j) (mac * dt1)) in *.
  split; [lra|]. split; [reflexivity|]. split; [exact Herr|].
  split; [reflexivity|]. split; [apply float32_error|].
  split; [exact Hv|]. split; [reflexivity|].
  assert (Ht : (v * 1000 <= m → t == v * 1000) ∧ (m <= v * 1000 → t == m)).
  { assert (Hw : v * pos_scale j == v * 1000)
      by (rewrite Hscale; reflexivity).
    subst t. set (w := v * pos_scale j) in *. unfold clamp_freq.
    repeat qcase; split; intros; try reflexivity; lra. }
  destruct Ht as [Ht1 Ht2]. split; [exact Ht1|]. split; [exact Ht2|].
  split; [rewrite Hdt; reflexivity|].
  rewrite Hfc.
  destruct (slew_between t (freq j) (mac * dt1) Hdv0)
    as (_ & _ & Hs1 & Hs2 & Hs3). fold n in Hs1, Hs2, Hs3.
  split; [intros H; rewrite (Hs1 H); reflexivity|].
  split; [intros H; rewrite (Hs2 H); reflexivity|].
  split; [intros H; rewrite (Hs3 H); reflexivity|].
  split; [reflexivity|].
  pose proof (float32_error n) as He.
  pose proof (slew_step t (freq j) (mac * dt1) Hdv0) as Hstep. fold n in Hstep.
  rewrite <- Hdt.
  apply Qabs_Qle_condition in He. apply Qabs_Qle_condition in Hstep.
  apply Qabs_Qle_condition. split; lra.
Qed.

Lemma position_step_scenario_witness :
  ∃ j' l,
    joints (data (update_freq board1 1000000
                    (host_write (host1 position_step) (init board1 [true]))))
      !! 0%nat = Some j'
    ∧ update_freq_locals board1 1000000
        (host_write (host1 position_step) (init board1 [true])) 0 = Some l
    ∧ error0 l == 1
    ∧ band l = Some (float32 0.001)
    ∧ error l == 0.998999999952502548694610595703125
    ∧ cmd_d j' == float32 (1 / (inject_Z 1000000 * 0.000000001))
    ∧ Qabs (cmd_d j' - 1 / (inject_Z 1000000 * 0.000000001))
        <= float32_slack (1 / (inject_Z 1000000 * 0.000000001))
    ∧ vel_law l == 0.998999999952502548694610595703125 + cmd_d j'
    ∧ max_freq l == PRU_BASEFREQ board1 / 2
    ∧ (vel_law l * 1000 <= max_freq l → vel_target l == vel_law l * 1000)
    ∧ (max_freq l <= vel_law l * 1000 → vel_target l == max_freq l)
    ∧ dv l == max_ac l * (inject_Z 1000000 * 0.000000001)
    ∧ (Qabs (vel_target l
             - freq_cmd (host_joint position_step (init_joint true)))
         <= dv l
       → new_vel l == vel_target l)
    ∧ (dv l < vel_target l
              - freq_cmd (host_joint position_step (init_joint true))
       → new_vel l
         == freq_cmd (host_joint position_step (init_joint true)) + dv l)
    ∧ (dv l < freq_cmd (host_joint position_step (init_joint true))
              - vel_target l
       → new_vel l
         == freq_cmd (host_joint position_step (init_joint true)) - dv l)
    ∧ freq_cmd j' == float32 (new_vel l)
    ∧ Qabs (freq_cmd j'
            - freq_cmd (host_joint position_step (init_joint true)))
        <= max_ac l * (inject_Z 1000000 * 0.000000001)
           + float32_slack (new_vel l).
Proof.
  apply (position_step_scenario board1 [true] 1000000
           (host_write (host1 position_step) (init board1 [true])) 0
           (host_joint position_step (init_joint true)));
    try reflexivity; try discriminate.
  exists [Host (host1 position_step)]. reflexivity.
Defined.

(** C3 as stated fails: in the scenario, with a period of 1 ms, the error
    the control law uses is 0.998999999952..., not 1, and its output is
    1000.998999999952..., not 1, so the target is the ceiling 60000, not
    1000.  The published frequency is the one slew step the first tick
    allows, 1. *)
Example position_step_not_unit :
  ∃ j' l,
    joints (data (update_freq board1 1000000
                    (host_write (host1 position_step) (init board1 [true]))))
      !! 0%nat = Some j'
    ∧ update_freq_locals board1 1000000
        (host_write (host1 position_step) (init board1 [true])) 0 = Some l
    ∧ error l == 0.998999999952502548694610595703125 ∧ ¬ error l == 1
    ∧ vel_law l == 1000.998999999952502548694610595703125
    ∧ ¬ vel_law l == 1
    ∧ vel_target l == 60000 ∧ ¬ vel_target l == 1000
    ∧ dv l == 1 ∧ freq_cmd j' == 1.
Proof.
  eexists _, _. split; [vm_compute; reflexivity|].
  split; [vm_compute; reflexivity|].
  repeat split; discriminate.
Qed.







(** ** The scale check *)

(** When the check sees the change, a scale of magnitude below [1e-20] is
    replaced by 1 and the reciprocal is computed from the replacement. *)
Lemma tiny_scale_replaced cfg j :
  ¬ pos_scale j == old_scale j →
  -1e-20 < pos_scale j → pos_scale j < 1e-20 →
  check_scale cfg j
  = (1, float32 (pos_scale j), float32 ((1 / STEP_MASK cfg) / 1)).
Proof.
  intros Hne Hlo Hhi. unfold check_scale.
  apply Qneb_true in Hne. apply Qltb_true in Hhi. apply Qgtb_true in Hlo.
  rewrite Hne, Hhi, Hlo. reflexivity.
Qed.

(** C8 (as the code has it).  The scale is set to 0, [update_freq] runs
    (and replaces it by 1, having stored 0 in [old_scale]), the scale is set
    to 0 again and [update_freq] runs again: this time the check compares 0
    with the stored 0, sees no change, and the scale in effect stays 0. *)
Example scale_zero_twice_stays_zero :
  ∃ j1 j2,
    joints (data (run board1 [Update_freq 1000000;
                              Host (host1 (scale_to 0)); Update_freq 1000000]
                    (init board1 [true]))) !! 0%nat = Some j1
    ∧ pos_scale j1 == 1 ∧ old_scale j1 == 0
    ∧ joints (data (run board1 [Update_freq 1000000;
                                Host (host1 (scale_to 0)); Update_freq 1000000;
                                Host (host1 (scale_to 0)); Update_freq 1000000]
                      (init board1 [true]))) !! 0%nat = Some j2
    ∧ pos_scale j2 == 0 ∧ ¬ pos_scale j2 == 1.
Proof.
  eexists _, _. split; [vm_compute; reflexivity|].
  split; [reflexivity|]. split; [reflexivity|].
  split; [vm_compute; reflexivity|].
  split; [reflexivity | discriminate].
Qed.

(** ** The handshake *)

Lemma spi_read_bus cfg resp s :
  bus (spi_read cfg resp s)
  = if SPIenable (data s) && attempt (data s)
    then set_tx_header (PRU_READ cfg) (txData s) :: bus s
    else bus s.
Proof.
  unfold spi_read. cbn [data set_txData].
  destruct (SPIenable (data s)); [|reflexivity].
  destruct (attempt (data s)); [|reflexivity].
  cbn [spi_transfer rxData rx_header andb].
  destruct (rx_header resp =? PRU_DATA cfg)%Z; [reflexivity|].
  destruct (rx_header resp =? PRU_ESTOP cfg)%Z; reflexivity.
Qed.

Lemma spi_read_status cfg resp s :
  SPIstatus (data (spi_read cfg resp s))
  = SPIenable (data s) && attempt (data s)
    && (rx_header resp =? PRU_DATA cfg)%Z.
Proof.
  unfold spi_read. cbn [data set_txData].
  destruct (SPIenable (data s)); [|reflexivity].
  destruct (attempt (data s)) eqn:Ha.
  - cbn [spi_transfer rxData rx_header andb].
    destruct (rx_header resp =? PRU_DATA cfg)%Z; [reflexivity|].
    destruct (rx_header resp =? PRU_ESTOP cfg)%Z; reflexivity.
  - simpl. unfold attempt in Ha. apply orb_false_iff in Ha. apply Ha.
Qed.

Lemma spi_read_resetOld cfg resp s :
  SPIresetOld (data (spi_read cfg resp s)) = SPIreset (data s).
Proof.
  unfold spi_read. cbn [data set_txData].
  destruct (SPIenable (data s)); [|reflexivity].
  destruct (attempt (data s)); [|reflexivity].
  cbn [spi_transfer rxData rx_header].
  destruct (rx_header resp =? PRU_DATA cfg)%Z; [reflexivity|].
  destruct (rx_header resp =? PRU_ESTOP cfg)%Z; reflexivity.
Qed.

Lemma exec_other_status cfg c s :
  is_read c = false → SPIstatus (data (exec cfg c s)) = SPIstatus (data s).
Proof.
  destruct c; cbn [exec is_read]; intros Hc; try discriminate.
  - reflexivity.
  - unfold update_freq. destruct (negb _); reflexivity.
  - unfold spi_write. destruct (SPIstatus (data s)) eqn:E; simpl; auto.
Qed.

Lemma exec_quiet cfg c s :
  SPIstatus (data s) = false →
  (is_read c = true → rising_edge (data s) = false) →
  bus (exec cfg c s) = bus s ∧ SPIstatus (data (exec cfg c s)) = false.
Proof.
  intros Hst Hedge. destruct c; cbn [exec is_read] in *.
  - auto.
  - unfold update_freq. destruct (negb _); auto.
  - unfold spi_write. rewrite Hst. auto.
  - rewrite spi_read_bus, spi_read_status. unfold attempt.
    rewrite Hst, (Hedge eq_refl), andb_false_r. auto.
Qed.

(** C4.  [spi_read] performs an exchange exactly when the link is enabled
    and either the reset pin shows a rising edge (high now, low at the
    previous call) or the status is high; the reset pin is stored at every
    call.  Hence, once the status is low, a run of calls in which no
    [spi_read] finds a rising edge performs no exchange at all, neither in
    [spi_write] nor in [spi_read], and leaves the status low. *)
Theorem exchange_gate cfg :
  (∀ resp s,
     bus (spi_read cfg resp s)
     = if SPIenable (data s)
          && (SPIreset (data s) && negb (SPIresetOld (data s))
              || SPIstatus (data s))
       then set_tx_header (PRU_READ cfg) (txData s) :: bus s
       else bus s)
  ∧ (∀ resp s, SPIresetOld (data (spi_read cfg resp s)) = SPIreset (data s))
  ∧ (∀ cs s,
       SPIstatus (data s) = false → no_edge cfg cs s →
       bus (run cfg cs s) = bus s ∧ SPIstatus (data (run cfg cs s)) = false).
Proof.
  split; [apply spi_read_bus|]. split; [apply spi_read_resetOld|].
  induction cs as [|c cs IH]; intros s Hst Hq; simpl; [auto|].
  destruct Hq as [Hedge Hq].
  destruct (exec_quiet cfg c s Hst Hedge) as [Hbus Hst'].
  destruct (IH _ Hst' Hq) as [Hb Hs]. fold (run cfg cs (exec cfg c s)).
  rewrite Hb, Hbus. auto.
Qed.

Lemma exchange_gate_witness :
  bus (spi_read board1 (answer 0 7) link_active)
  = set_tx_header (PRU_READ board1) (txData link_active) :: bus link_active
  ∧ bus (run board1 [Update_freq 1000000; Spi_write (answer 0 7);
                     Spi_read (answer (PRU_DATA board1) 7)] link_fault)
    = bus link_fault.
Proof.
  destruct (exchange_gate board1) as (Hgate & _ & Hquiet). split.
  - apply (Hgate (answer 0 7) link_active).
  - apply (Hquiet [Update_freq 1000000; Spi_write (answer 0 7);
                   Spi_read (answer (PRU_DATA board1) 7)] link_fault).
    + reflexivity.
    + simpl. repeat split; intros; try reflexivity; discriminate.
Defined.

(** C5.  [spi_read] leaves the status high exactly when the link is
    enabled, an exchange was attempted and the received header is
    [PRU_DATA]; so the e-stop header, any other header and a disabled link
    all leave it low.  In every state reached from the initial one the
    status is high only if the latest [spi_read] was such a call. *)
Theorem status_only_after_valid_exchange cfg ctrl :
  (∀ resp s,
     SPIstatus (data (spi_read cfg resp s)) = true
     ↔ SPIenable (data s) = true ∧ attempt (data s) = true
       ∧ rx_header resp = PRU_DATA cfg)
  ∧ (∀ cs,
       SPIstatus (data (run cfg cs (init cfg ctrl))) = true →
       ∃ pre resp post,
         cs = pre ++ Spi_read resp :: post
         ∧ forallb (λ c, negb (is_read c)) post = true
         ∧ SPIenable (data (run cfg pre (init cfg ctrl))) = true
         ∧ attempt (data (run cfg pre (init cfg ctrl))) = true
         ∧ rx_header resp = PRU_DATA cfg).
Proof.
  assert (Hstep : ∀ resp s,
     SPIstatus (data (spi_read cfg resp s)) = true
     ↔ SPIenable (data s) = true ∧ attempt (data s) = true
       ∧ rx_header resp = PRU_DATA cfg).
  { intros resp s. rewrite spi_read_status, !andb_true_iff, Z.eqb_eq. tauto. }
  split; [exact Hstep|].
  induction cs as [|c cs IH] using rev_ind; [discriminate|].
  rewrite run_app. simpl. intros Hst.
  destruct (is_read c) eqn:Hc.
  - destruct c; try discriminate.
    apply Hstep in Hst. exists cs, resp, []. auto.
  - rewrite exec_other_status in Hst by exact Hc.
    destruct (IH Hst) as (pre & resp & post & -> & Hpost & Hrest).
    exists pre, resp, (post ++ [c]). split; [by rewrite <- app_assoc|].
    split; [|exact Hrest].
    rewrite forallb_app, Hpost. simpl. rewrite Hc. reflexivity.
Qed.

Lemma status_only_after_valid_exchange_witness :
  ∃ pre resp post,
    [Host link_up; Spi_read (answer (PRU_DATA board1) 7); Update_freq 1000000]
    = pre ++ Spi_read resp :: post
    ∧ forallb (λ c, negb (is_read c)) post = true
    ∧ SPIenable (data (run board1 pre (init board1 [true]))) = true
    ∧ attempt (data (run board1 pre (init board1 [true]))) = true
    ∧ rx_header resp = PRU_DATA board1.
Proof.
  apply (proj2 (status_only_after_valid_exchange board1 [true])).
  reflexivity.
Defined.

(** C7.  When an exchange is attempted and the received header is
    [PRU_ESTOP], [spi_read] leaves the status low and changes no joint
    (position feedback, count, accumulator and stored counter included), no
    process variable and no input pin; the exchange took place and both
    messages were printed. *)
Theorem estop_clears_status_keeps_feedback cfg resp s :
  SPIenable (data s) = true →
  attempt (data s) = true →
  rx_header resp = PRU_ESTOP cfg →
  PRU_ESTOP cfg ≠ PRU_DATA cfg →
  SPIstatus (data (spi_read cfg resp s)) = false
  ∧ joints (data (spi_read cfg resp s)) = joints (data s)
  ∧ processVariable (data (spi_read cfg resp s)) = processVariable (data s)
  ∧ inputs (data (spi_read cfg resp s)) = inputs (data s)
  ∧ bus (spi_read cfg resp s)
    = set_tx_header (PRU_READ cfg) (txData s) :: bus s
  ∧ console (spi_read cfg resp s)
    = Msg_bad_payload (PRU_ESTOP cfg) :: Msg_estop_active :: console s.
Proof.
  intros Hen Hat Hh Hne. unfold spi_read. cbn [data set_txData].
  rewrite Hen, Hat. cbn [spi_transfer rxData rx_header]. rewrite Hh.
  apply Z.eqb_neq in Hne. rewrite Hne, Z.eqb_refl. simpl. repeat split.
  rewrite Hh. reflexivity.
Qed.

Lemma estop_clears_status_keeps_feedback_witness :
  SPIstatus (data link_active) = true
  ∧ SPIstatus (data (spi_read board1 (answer (PRU_ESTOP board1) 9)
                       link_active)) = false
  ∧ joints (data (spi_read board1 (answer (PRU_ESTOP board1) 9) link_active))
    = joints (data link_active).
Proof.
  split; [reflexivity|].
  destruct (estop_clears_status_keeps_feedback board1
              (answer (PRU_ESTOP board1) 9) link_active) as (H1 & H2 & _).
  - reflexivity.
  - reflexivity.
  - reflexivity.
  - discriminate.
  - split; [exact H1 | exact H2].
Defined.

(** ** Incremental feedback *)

Ltac wrap_arith :=
  unfold half_range, in_int64, int32, int64 in *;
  Z.div_mod_to_equations; lia.


Lemma int32_range z : (-2147483648 <= int32 z < 2147483648)%Z.
Proof. wrap_arith. Qed.




Lemma trunc_inject q z : q == inject_Z z → trunc q = z.
Proof.
  unfold Qeq, trunc. simpl. intros H. rewrite Z.mul_1_r in H. rewrite H.
  apply Z.quot_mul. discriminate.
Qed.








Lemma spi_read_valid_joints cfg resp s :
  SPIenable (data s) = true → attempt (data s) = true →
  rx_header resp = PRU_DATA cfg →
  joints (data (spi_read cfg resp s))
  = imap (λ i j, fst (read_joint cfg i
                        (default 0%Z (jointFeedback resp !! i)) j))
         (joints (data s)).
Proof.
  intros Hen Hat Hh. unfold spi_read. cbn [data set_txData].
  rewrite Hen, Hat. cbn [spi_transfer rxData rx_header].
  rewrite Hh, Z.eqb_refl. reflexivity.
Qed.

(** ** The frequency ratio *)

Lemma fdiv_zero a b : b == 0 → fdiv a b = None.
Proof. intros Hb. unfold fdiv. apply Qeq_bool_iff in Hb. rewrite Hb. reflexivity. Qed.

Lemma spi_write_jointFreqCmd cfg resp s :
  jointFreqCmd (txData (spi_write cfg resp s))
  = (λ j, to_int32 (float32 <$> fdiv (float32 (PRU_OSC cfg)) (freq j)))
      <$> joints (data s).
Proof. unfold spi_write. destruct (SPIstatus (data s)); reflexivity. Qed.

(** C10 (as the code has it).  Joint 0 is in velocity mode, its enable pin
    is low and its velocity command is 1000: [update_freq] still stores the
    frequency 1000, and [spi_write] divides [PRU_OSC] by 1000, not by 0,
    and sends the ratio 48000.  The frequency of a disabled joint is not 0
    because the test of line 684 never fires (the defect of C1). *)
Example disabled_joint_divisor_not_zero :
  ∃ j,
    joints (data (run board1 [Host (host1 disabled_full_speed);
                              Update_freq 1000000] (init board1 [false])))
      !! 0%nat = Some j
    ∧ stepperEnable j = Some false
    ∧ freq j == 1000 ∧ ¬ freq j == 0
    ∧ jointFreqCmd
        (txData (run board1 [Host (host1 disabled_full_speed);
                             Update_freq 1000000; Spi_write (answer 0 0)]
                   (init board1 [false]))) !! 0%nat = Some (Some 48000%Z).
Proof.
  eexists. split; [vm_compute; reflexivity|].
  split; [reflexivity|]. split; [reflexivity|]. split; [discriminate|].
  vm_compute. reflexivity.
Qed.

(** * Further properties *)

(** ** Start-up *)

Lemma parse_ctrl_type_invalid c rest :
  parse_ctrl_type (Some (String.String c rest)) = INVALID
  ↔ c ≠ zero ∧ c ≠ "p"%char ∧ c ≠ "P"%char ∧ c ≠ "v"%char ∧ c ≠ "V"%char.
Proof.
  simpl. split.
  - destruct (Ascii.eqb_spec c zero), (Ascii.eqb_spec c "p"),
      (Ascii.eqb_spec c "P"), (Ascii.eqb_spec c "v"),
      (Ascii.eqb_spec c "V"); simpl; intros H; try discriminate; auto.
  - intros (H0 & H1 & H2 & H3 & H4).
    apply Ascii.eqb_neq in H0, H1, H2, H3, H4.
    rewrite H0, H1, H2, H3, H4. reflexivity.
Qed.

Lemma parse_ctrl_type_velocity c rest :
  parse_ctrl_type (Some (String.String c rest)) = VELOCITY
  ↔ c = "v"%char ∨ c = "V"%char.
Proof.
  simpl. split.
  - destruct (Ascii.eqb_spec c zero), (Ascii.eqb_spec c "p"),
      (Ascii.eqb_spec c "P"), (Ascii.eqb_spec c "v"),
      (Ascii.eqb_spec c "V"); simpl; intros H; try discriminate; auto.
  - intros [-> | ->]; reflexivity.
Qed.

Lemma parse_ctrl_type_entry ctrl_type n (k : CONTROL) :
  k ≠ POSITION →
  parse_ctrl_type (ctrl_type_entry ctrl_type n) = k
  ↔ ∃ c rest, ctrl_type !! n = Some (Some (String.String c rest))
      ∧ parse_ctrl_type (Some (String.String c rest)) = k.
Proof.
  intros Hk. unfold ctrl_type_entry.
  destruct (ctrl_type !! n) as [[[|c rest]|]|]; simpl default.
  - split; [intros H; simpl in H; congruence|].
    intros (? & ? & ? & _); discriminate.
  - split; [eauto|]. intros (? & ? & [= <- <-] & H). exact H.
  - split; [intros H; simpl in H; congruence|].
    intros (? & ? & ? & _); discriminate.
  - split; [intros H; simpl in H; congruence|].
    intros (? & ? & ? & _); discriminate.
Qed.

Lemma existsb_seq_false (f : nat → bool) n :
  existsb f (seq 0 n) = false ↔ ∀ i, (i < n)%nat → f i = false.
Proof.
  rewrite <- not_true_iff_false, existsb_exists. split.
  - intros H i Hi. apply not_true_iff_false. intros Hf. apply H.
    exists i. split; [|exact Hf]. apply list_elem_of_In, elem_of_seq. lia.
  - intros H (i & Hi & Hf). apply list_elem_of_In, elem_of_seq in Hi.
    rewrite H in Hf by lia. discriminate.
Qed.

(** Once the control types are accepted, the calls decide. *)
Lemma rtapi_app_main_calls cfg env ctrl_type :
  existsb (λ n, is_INVALID (parse_ctrl_type (ctrl_type_entry ctrl_type n)))
    (seq 0 (JOINTS cfg)) = false →
  rtapi_app_main cfg env ctrl_type
  = if all_ok env
    then Some (init cfg
                 ((λ n, is_POSITION
                          (parse_ctrl_type (ctrl_type_entry ctrl_type n)))
                    <$> seq 0 (JOINTS cfg)))
    else None.
Proof.
  intros H. unfold rtapi_app_main, all_ok. rewrite H.
  destruct env as [[] [] [] [] [] [] [] []]; reflexivity.
Qed.

(** X1.  The component refuses to start exactly when the control type of some
    joint is a non-empty string that begins with a character other than p, P,
    v or V (the rest of the string is never looked at), or one of its calls
    into HAL and the BCM2835 library fails.  When it starts, it has [JOINTS]
    joints, and a joint is in velocity mode exactly when its control type
    begins with v or V (a missing or empty entry means position mode). *)
Theorem ctrl_type_decides_startup cfg env ctrl_type :
  (rtapi_app_main cfg env ctrl_type = None
   ↔ (∃ n c rest,
        (n < JOINTS cfg)%nat
        ∧ ctrl_type !! n = Some (Some (String.String c rest))
        ∧ c ≠ zero ∧ c ≠ "p"%char ∧ c ≠ "P"%char
        ∧ c ≠ "v"%char ∧ c ≠ "V"%char)
     ∨ hal_init_ok env = false ∨ hal_malloc_ok env = false
     ∨ rt_bcm2835_init_ok env = false ∨ bcm2835_spi_begin_ok env = false
     ∨ pin_export_ok env = false ∨ export_update_freq_ok env = false
     ∨ export_write_ok env = false ∨ export_read_ok env = false)
  ∧ (∀ s, rtapi_app_main cfg env ctrl_type = Some s →
       length (joints (data s)) = JOINTS cfg
       ∧ ∀ n j, joints (data s) !! n = Some j →
           (pos_mode j = false
            ↔ ∃ c rest, ctrl_type !! n = Some (Some (String.String c rest))
                ∧ (c = "v"%char ∨ c = "V"%char))).
Proof.
  destruct (existsb
              (λ n, is_INVALID (parse_ctrl_type (ctrl_type_entry ctrl_type n)))
              (seq 0 (JOINTS cfg))) eqn:Hex.
  - assert (Hnone : rtapi_app_main cfg env ctrl_type = None)
      by (unfold rtapi_app_main; rewrite Hex; reflexivity).
    rewrite Hnone.
    split; [|discriminate]. split; [intros _|reflexivity]. left.
    apply existsb_exists in Hex as (n & Hn & Hinv).
    apply list_elem_of_In, elem_of_seq in Hn.
    destruct (parse_ctrl_type (ctrl_type_entry ctrl_type n)) eqn:Hp;
      try discriminate.
    apply parse_ctrl_type_entry in Hp as (c & rest & He & Hp);
      [|discriminate].
    apply parse_ctrl_type_invalid in Hp.
    exists n, c, rest. split; [lia|]. auto.
  - rewrite (rtapi_app_main_calls cfg env ctrl_type Hex).
    pose proof (proj1 (existsb_seq_false _ _) Hex) as Hall.
    assert (Hbad : ¬ ∃ n c rest,
              (n < JOINTS cfg)%nat
              ∧ ctrl_type !! n = Some (Some (String.String c rest))
              ∧ c ≠ zero ∧ c ≠ "p"%char ∧ c ≠ "P"%char
              ∧ c ≠ "v"%char ∧ c ≠ "V"%char).
    { intros (n & c & rest & Hn & He & Hc).
      specialize (Hall n Hn). cbv beta in Hall.
      assert (Hp : parse_ctrl_type (ctrl_type_entry ctrl_type n) = INVALID).
      { apply parse_ctrl_type_entry; [discriminate|].
        exists c, rest. split; [exact He|].
        apply parse_ctrl_type_invalid, Hc. }
      rewrite Hp in Hall. discriminate. }
    split.
    + unfold all_ok.
      destruct env as [[] [] [] [] [] [] [] []]; cbn;
        (split; [intros H; try discriminate H; tauto
                |intros H; try reflexivity;
                 exfalso; intuition discriminate]).
    + destruct (all_ok env); [|discriminate].
      intros s [= <-]. simpl. rewrite !length_fmap, length_seq.
      split; [reflexivity|]. intros n j Hj.
      rewrite list_lookup_fmap in Hj.
      destruct (seq 0 (JOINTS cfg) !! n) as [m|] eqn:Hm; [|discriminate].
      apply lookup_seq in Hm as [-> Hlt]. simpl in Hj.
      rewrite list_lookup_fmap, lookup_seq_lt in Hj by exact Hlt.
      simpl in Hj. injection Hj as <-. simpl. specialize (Hall n Hlt).
      cbv beta in Hall.
      transitivity (parse_ctrl_type (ctrl_type_entry ctrl_type n) = VELOCITY).
      * destruct (parse_ctrl_type (ctrl_type_entry ctrl_type n));
          simpl in *; split; congruence.
      * rewrite parse_ctrl_type_entry by discriminate.
        split; intros (c & rest & He & Hc); exists c, rest;
          (split; [exact He|]); apply (parse_ctrl_type_velocity c rest);
          exact Hc.
Qed.

(** ** The device tree *)

Lemma lor_low x y n :
  (0 <= n)%Z → (0 <= y < 2 ^ n)%Z → Z.lor (x * 2 ^ n) y = (x * 2 ^ n + y)%Z.
Proof.
  intros Hn Hy. rewrite <- Z.add_lor_land.
  assert (Hl : Z.land (x * 2 ^ n) y = 0%Z).
  { apply Z.bits_inj'. intros m Hm. rewrite Z.land_spec, Z.bits_0.
    destruct (Z.lt_ge_cases m n).
    - rewrite Z.mul_pow2_bits_low by lia. reflexivity.
    - rewrite <- (Z.mod_small y (2 ^ n)) by lia.
      rewrite Z.mod_pow2_bits_high by lia. apply andb_false_r. }
  rewrite Hl. lia.
Qed.

Lemma be32_value b0 b1 b2 b3 :
  (0 <= b0 < 256)%Z → (0 <= b1 < 256)%Z → (0 <= b2 < 256)%Z →
  (0 <= b3 < 256)%Z →
  be32 b0 b1 b2 b3
  = (b0 * 16777216 + b1 * 65536 + b2 * 256 + b3)%Z.
Proof.
  intros H0 H1 H2 H3. unfold be32.
  rewrite !Z.shiftl_mul_pow2 by lia. rewrite Z.mul_1_r.
  rewrite (lor_low b0 (b1 * 2 ^ 16) 24) by lia.
  replace (b0 * 2 ^ 24 + b1 * 2 ^ 16)%Z
    with ((b0 * 256 + b1) * 2 ^ 16)%Z by lia.
  rewrite (lor_low _ (b2 * 2 ^ 8) 16) by lia.
  replace ((b0 * 256 + b1) * 2 ^ 16 + b2 * 2 ^ 8)%Z
    with ((b0 * 65536 + b1 * 256 + b2) * 2 ^ 8)%Z by lia.
  rewrite (lor_low _ b3 8) by lia.
  rewrite Z.mod_small by lia. lia.
Qed.

Lemma be32_be_bytes x :
  (0 <= x < 4294967296)%Z →
  be32 ((x / 16777216) mod 256) ((x / 65536) mod 256) ((x / 256) mod 256)
       (x mod 256) = x.
Proof.
  intros Hx. rewrite be32_value by (apply Z.mod_pos_bound; lia).
  Z.div_mod_to_equations. lia.
Qed.

Lemma be32_range b0 b1 b2 b3 : (0 <= be32 b0 b1 b2 b3 < 4294967296)%Z.
Proof. unfold be32. apply Z.mod_pos_bound. lia. Qed.

(** X2.  The block never adopts a peripheral base it does not know, takes a
    record only behind the bytes 7e 00 00 00, and sets the RPi 4 flag exactly
    when it adopts the RPi 4 base. *)
Theorem read_dt_ranges_known_base h stack file p :
  read_dt_ranges h stack file p = p
  ∨ (∃ bytes, file = Some bytes
       ∧ (8 <= length bytes)%nat
       ∧ take 4 bytes = [126; 0; 0; 0]%Z)
    ∧ (bcm2835_peripherals_base (read_dt_ranges h stack file p)
         = BCM2835_PERI_BASE h
       ∨ bcm2835_peripherals_base (read_dt_ranges h stack file p)
         = BCM2835_RPI2_PERI_BASE h
       ∨ bcm2835_peripherals_base (read_dt_ranges h stack file p)
         = BCM2835_RPI4_PERI_BASE h)
    ∧ (0 <= bcm2835_peripherals_size (read_dt_ranges h stack file p)
         < 4294967296)%Z
    ∧ pud_type_rpi4 (read_dt_ranges h stack file p)
      = (bcm2835_peripherals_base (read_dt_ranges h stack file p)
           =? BCM2835_RPI4_PERI_BASE h)%Z
        || pud_type_rpi4 p.
Proof.
  destruct file as [bytes|]; [|left; reflexivity].
  unfold read_dt_ranges, fread16.
  destruct (8 <=? length (take 16 bytes))%nat eqn:Hn; [|left; reflexivity].
  apply Nat.leb_le in Hn. rewrite length_take in Hn.
  set (buf := take 16 bytes ++ drop (length (take 16 bytes)) stack).
  set (b := λ i : nat, default 0%Z (buf !! i)).
  match goal with
  | |- context [if ?c then {| bcm2835_peripherals_base := ?ba;
                              bcm2835_peripherals_size := ?sz;
                              pud_type_rpi4 := _ |} else p] =>
      set (base := ba); set (size := sz)
  end.
  match goal with
  | |- context [if ?c then _ else p] => destruct c eqn:Hc
  end; [right|left; reflexivity].
  apply andb_true_iff in Hc as [Hc Hb].
  apply andb_true_iff in Hc as [Hc H3].
  apply andb_true_iff in Hc as [Hc H2].
  apply andb_true_iff in Hc as [H0 H1].
  apply Z.eqb_eq in H0, H1, H2, H3.
  split; [|split; [|split]].
  - exists bytes. split; [reflexivity|]. split; [lia|].
    assert (Hb4 : ∀ i, (i < 4)%nat → bytes !! i = Some (b i)).
    { intros i Hi. unfold b, buf.
      rewrite lookup_app_l by (rewrite length_take; lia).
      rewrite lookup_take_lt by lia.
      destruct (bytes !! i) eqn:E; [reflexivity|].
      apply lookup_ge_None in E. lia. }
    apply list_eq. intros i. destruct (decide (i < 4)%nat) as [Hi|Hi].
    + rewrite lookup_take_lt by lia. rewrite Hb4 by lia.
      unfold b. destruct i as [|[|[|[|i]]]]; simpl; try lia; congruence.
    + rewrite lookup_take_ge by lia.
      destruct i as [|[|[|[|i]]]]; simpl; try lia; reflexivity.
  - simpl. apply orb_true_iff in Hb as [Hb|Hb];
      [apply orb_true_iff in Hb as [Hb|Hb]|]; apply Z.eqb_eq in Hb; auto.
  - simpl. subst size. destruct (_ =? 0)%Z; apply be32_range.
  - simpl. destruct (base =? BCM2835_RPI4_PERI_BASE h)%Z; reflexivity.
Qed.

(** X3.  A record in either layout is read back as written: the RPi 2/3 layout
    holds base and size in bytes 4-11, the RPi 4 layout holds four zero bytes
    there and base and size in bytes 8-15. *)
Theorem read_dt_ranges_round_trip h stack p base size rest :
  (0 <= base < 4294967296)%Z →
  (0 <= size < 4294967296)%Z →
  base = BCM2835_PERI_BASE h ∨ base = BCM2835_RPI2_PERI_BASE h
    ∨ base = BCM2835_RPI4_PERI_BASE h →
  (base ≠ 0%Z →
   read_dt_ranges h stack
     (Some ([126; 0; 0; 0]%Z ++ be_bytes base ++ be_bytes size ++ rest)) p
   = {| bcm2835_peripherals_base := base;
        bcm2835_peripherals_size := size;
        pud_type_rpi4 :=
          (base =? BCM2835_RPI4_PERI_BASE h)%Z || pud_type_rpi4 p |})
  ∧ read_dt_ranges h stack
      (Some ([126; 0; 0; 0; 0; 0; 0; 0]%Z ++ be_bytes base ++ be_bytes size
               ++ rest)) p
    = {| bcm2835_peripherals_base := base;
         bcm2835_peripherals_size := size;
         pud_type_rpi4 :=
           (base =? BCM2835_RPI4_PERI_BASE h)%Z || pud_type_rpi4 p |}.
Proof.
  intros Hbase Hsize Hknown.
  assert (Hk : ((base =? BCM2835_PERI_BASE h)%Z
                || (base =? BCM2835_RPI2_PERI_BASE h)%Z
                || (base =? BCM2835_RPI4_PERI_BASE h)%Z) = true).
  { destruct Hknown as [->| [->| ->]]; rewrite Z.eqb_refl;
      rewrite ?orb_true_r; reflexivity. }
  split.
  - intros Hnz. unfold read_dt_ranges, fread16, be_bytes.
    cbn [app take length drop Nat.leb lookup list_lookup default from_option id].
    rewrite !be32_be_bytes by assumption.
    apply Z.eqb_neq in Hnz. rewrite Hnz.
    cbn [Z.eqb Pos.eqb andb]. rewrite Hk.
    destruct (base =? BCM2835_RPI4_PERI_BASE h)%Z; reflexivity.
  - unfold read_dt_ranges, fread16, be_bytes.
    cbn [app take length drop Nat.leb lookup list_lookup default from_option id].
    rewrite !be32_be_bytes by assumption.
    change (be32 0 0 0 0) with 0%Z.
    cbn [Z.eqb Pos.eqb andb]. rewrite Hk.
    destruct (base =? BCM2835_RPI4_PERI_BASE h)%Z; reflexivity.
Qed.

(** ** The limits, over runs *)

(** X4.  In every reachable state and for a positive period, the frequency
    ceiling of a joint lies between 0 and [PRU_BASEFREQ / 2], the acceleration
    ceiling is not negative, and one slew step [dv] is at least 0 and at most
    the frequency ceiling. *)
Theorem update_freq_limits cfg ctrl period s i j :
  reachable cfg ctrl s →
  (0 < period)%Z →
  0 <= PRU_BASEFREQ cfg →
  joints (data s) !! i = Some j →
  ∃ l, update_freq_locals cfg period s i = Some l
       ∧ 0 <= max_freq l ∧ max_freq l <= PRU_BASEFREQ cfg / 2
       ∧ 0 <= max_ac l
       ∧ 0 <= dv l ∧ dv l <= max_freq l.
Proof.
  intros Hreach Hp Hbase Hj.
  pose proof (reachable_wf _ _ _ Hreach) as Hwf.
  destruct (update_freq_lookup cfg period s i j Hj) as [_ Hl].
  eexists. split; [exact Hl|].
  apply tick_joint_limits; assumption.
Qed.


Lemma check_scale_again cfg j j1 :
  pos_scale j1 = fst (fst (check_scale cfg j)) →
  old_scale j1 = snd (fst (check_scale cfg j)) →
  fst (fst (check_scale cfg j1)) = pos_scale j1.
Proof.
  unfold check_scale. intros Hp Ho.
  destruct (Qneb (pos_scale j1) (old_scale j1)) eqn:Hne1; [|reflexivity].
  cbn [fst].
  destruct (Qneb (pos_scale j) (old_scale j)) eqn:Hne; cbn [fst snd] in Hp, Ho.
  - destruct (Qltb (pos_scale j) 1e-20 && Qgtb (pos_scale j) (-1e-20)) eqn:Ht.
    + rewrite Hp. reflexivity.
    + rewrite Hp, Ht. reflexivity.
  - rewrite Hp, Ho, Hne in Hne1. discriminate.
Qed.

Lemma limit_freq_again cfg mv scale :
  0 <= PRU_BASEFREQ cfg →
  fst (limit_freq cfg (fst (limit_freq cfg mv scale)) scale)
    == fst (limit_freq cfg mv scale)
  ∧ snd (limit_freq cfg (fst (limit_freq cfg mv scale)) scale)
    == snd (limit_freq cfg mv scale).
Proof.
  intros Hb. unfold limit_freq.
  assert (Hb2 : 0 <= PRU_BASEFREQ cfg / 2) by (apply Qle_shift_div_l; lra).
  pose proof (fabs_nonneg scale) as Hs.
  set (a := fabs scale) in *. set (m := PRU_BASEFREQ cfg / 2) in *.
  destruct (Qle_bool mv 0) eqn:H1; cbn [fst snd].
  { change (Qle_bool 0 0) with true. cbn [fst snd]. split; reflexivity. }
  apply Qle_bool_false in H1.
  destruct (Qgtb (mv * a) m) eqn:H2; cbn [fst snd].
  - apply Qgtb_true in H2.
    assert (Ha : 0 < a) by (destruct (Qlt_le_dec 0 a); [assumption | nra]).
    assert (Hq : m / a * a == m) by (field; lra).
    assert (Hq0 : 0 <= m / a) by (apply Qle_shift_div_l; lra).
    destruct (Qle_bool (m / a) 0) eqn:H3; cbn [fst snd].
    + apply Qle_bool_iff in H3. split; [lra | reflexivity].
    + destruct (Qgtb (m / a * a) m) eqn:H4; cbn [fst snd].
      * apply Qgtb_true in H4. lra.
      * split; [reflexivity | exact Hq].
  - rewrite (proj2 (Qle_bool_false _ _) H1), H2. cbn [fst snd].
    split; reflexivity.
Qed.

Lemma limit_accel_again mf mf' r r' ma scale :
  mf == mf' → r == r' → 0 <= mf * r →
  fst (limit_accel mf' r' (fst (limit_accel mf r ma scale)) scale)
    == fst (limit_accel mf r ma scale)
  ∧ snd (limit_accel mf' r' (fst (limit_accel mf r ma scale)) scale)
    == snd (limit_accel mf r ma scale).
Proof.
  intros Hmf Hr Hnn. unfold limit_accel.
  assert (He : mf' * r' == mf * r) by (rewrite Hmf, Hr; reflexivity).
  pose proof (fabs_nonneg scale) as Hs.
  set (a := fabs scale) in *. set (m := mf * r) in *.
  set (m' := mf' * r') in *.
  destruct (Qle_bool ma 0) eqn:H1; cbn [fst snd].
  { change (Qle_bool 0 0) with true. cbn [fst snd]. split; [reflexivity|lra]. }
  apply Qle_bool_false in H1.
  destruct (Qgtb (ma * a) m) eqn:H2; cbn [fst snd].
  - apply Qgtb_true in H2.
    assert (Ha : 0 < a) by (destruct (Qlt_le_dec 0 a); [assumption | nra]).
    assert (Hq : m / a * a == m) by (field; lra).
    assert (Hq0 : 0 <= m / a) by (apply Qle_shift_div_l; lra).
    destruct (Qle_bool (m / a) 0) eqn:H3; cbn [fst snd].
    + apply Qle_bool_iff in H3. split; [lra | lra].
    + destruct (Qgtb (m / a * a) m') eqn:H4; cbn [fst snd].
      * apply Qgtb_true in H4. lra.
      * split; [reflexivity | exact Hq].
  - apply Qgtb_false in H2.
    rewrite (proj2 (Qle_bool_false _ _) H1).
    destruct (Qgtb (ma * a) m') eqn:H4; cbn [fst snd].
    + apply Qgtb_true in H4. lra.
    + split; reflexivity.
Qed.

Lemma update_joint_settle cfg pr pr' d d' r r' e e' j :
  0 <= PRU_BASEFREQ cfg → r == r' → 0 <= r →
  pos_scale (fst (update_joint cfg pr' d' r' e'
                    (fst (update_joint cfg pr d r e j))))
  = pos_scale (fst (update_joint cfg pr d r e j))
  ∧ maxvel (fst (update_joint cfg pr' d' r' e'
                   (fst (update_joint cfg pr d r e j))))
    == maxvel (fst (update_joint cfg pr d r e j))
  ∧ maxaccel (fst (update_joint cfg pr' d' r' e'
                     (fst (update_joint cfg pr d r e j))))
    == maxaccel (fst (update_joint cfg pr d r e j)).
Proof.
  intros Hbase Hr Hr0.
  set (j1 := fst (update_joint cfg pr d r e j)).
  assert (Hj1 : pos_scale j1 = fst (fst (check_scale cfg j))
                ∧ old_scale j1 = snd (fst (check_scale cfg j))
                ∧ maxvel j1
                  = fst (limit_freq cfg (maxvel j) (pos_scale j1))
                ∧ maxaccel j1
                  = fst (limit_accel
                           (snd (limit_freq cfg (maxvel j) (pos_scale j1)))
                           r (maxaccel j) (pos_scale j1))).
  { subst j1. unfold_update_joint.
    cbn [pos_scale old_scale maxvel maxaccel].
    rewrite Efreq. cbn [fst snd]. rewrite Eaccel. auto. }
  destruct Hj1 as (Hps & Hos & Hmv & Hma).
  pose proof (check_scale_again cfg j j1 Hps Hos) as Hsc.
  clearbody j1. unfold update_joint.
  destruct (check_scale cfg j1) as [[scale oscale] recip] eqn:E1.
  cbn [fst] in Hsc. subst scale.
  destruct (limit_freq cfg (maxvel j1) (pos_scale j1)) as [mv2 mf2] eqn:E2.
  destruct (limit_accel mf2 r' (maxaccel j1) (pos_scale j1))
    as [ma2 mac2] eqn:E3.
  cbn [fst pos_scale maxvel maxaccel].
  split; [reflexivity|].
  destruct (limit_freq_again cfg (maxvel j) (pos_scale j1) Hbase) as [Hf1 Hf2].
  rewrite <- Hmv in Hf1, Hf2. rewrite E2 in Hf1, Hf2. cbn [fst snd] in Hf1, Hf2.
  split; [exact Hf1|].
  set (mf1 := snd (limit_freq cfg (maxvel j) (pos_scale j1))) in *.
  assert (Hnn : 0 <= mf1 * r).
  { apply Qmult_le_0_compat; [apply limit_freq_nonneg, Hbase | exact Hr0]. }
  destruct (limit_accel_again mf1 mf2 r r' (maxaccel j) (pos_scale j1))
    as [Ha1 _].
  - symmetry. exact Hf2.
  - exact Hr.
  - exact Hnn.
  - rewrite <- Hma, E3 in Ha1. exact Ha1.
Qed.

(** X6.  The parameter handling settles in one call: a second call with the
    same period and no write of the host in between leaves the scale, [maxvel]
    and [maxaccel] of every joint as the first call left them. *)
Theorem update_freq_parameters_settle cfg ctrl period s i j :
  reachable cfg ctrl s →
  (0 < period)%Z →
  0 <= PRU_BASEFREQ cfg →
  joints (data s) !! i = Some j →
  ∃ j1 j2,
    joints (data (update_freq cfg period s)) !! i = Some j1
    ∧ joints (data (update_freq cfg period (update_freq cfg period s))) !! i
      = Some j2
    ∧ pos_scale j2 = pos_scale j1
    ∧ maxvel j2 == maxvel j1
    ∧ maxaccel j2 == maxaccel j1.
Proof.
  intros Hreach Hp Hbase Hj.
  pose proof (reachable_wf _ _ _ Hreach) as Hwf.
  assert (Hwf1 : wf (update_freq cfg period s)) by apply wf_update_freq, Hwf.
  destruct (update_freq_lookup cfg period s i j Hj) as [Hj1 _].
  destruct (update_freq_lookup cfg period _ i _ Hj1) as [Hj2 _].
  eexists _, _. split; [exact Hj1|]. split; [exact Hj2|]. clear Hj1 Hj2.
  pose proof (tick_state_recip period s Hwf) as Hr.
  pose proof (tick_state_recip period _ Hwf1) as Hr1.
  pose proof (period_recip_pos period Hp) as Hrpos.
  unfold tick_joint. apply update_joint_settle; [exact Hbase | |].
  - rewrite Hr, Hr1. reflexivity.
  - rewrite Hr. lra.
Qed.





(** X9.  The cached period constants are those of the period of the latest
    call, although they are recomputed only when the period changes. *)
Theorem update_freq_period_constants cfg ctrl period s :
  reachable cfg ctrl s →
  old_dtns (update_freq cfg period s) = period
  ∧ dt (update_freq cfg period s) == inject_Z period * 0.000000001
  ∧ recip_dt (update_freq cfg period s)
    == 1 / (inject_Z period * 0.000000001).
Proof.
  intros Hreach. pose proof (reachable_wf _ _ _ Hreach) as Hwf.
  pose proof (tick_state_dt period s Hwf) as Hdt.
  pose proof (tick_state_recip period s Hwf) as Hrdt.
  unfold update_freq. fold (tick_state period s). cbn [set_data old_dtns dt recip_dt].
  split; [|split; assumption].
  unfold tick_state. destruct (Z.eqb_spec period (old_dtns s)); simpl; auto.
Qed.

(** ** The bit fields of spi_write *)

Lemma testbit_255 i : (0 <= i)%Z → Z.testbit 255 i = (i <? 8)%Z.
Proof. intros Hi. apply (Z.testbit_ones_nonneg 8 i); lia. Qed.

Lemma testbit_one_shifted n i :
  Z.testbit (Z.shiftl 1 (Z.of_nat n)) i = (i =? Z.of_nat n)%Z.
Proof.
  rewrite Z.shiftl_1_l, Z.pow2_bits_eqb by lia. apply Z.eqb_sym.
Qed.

Lemma pack_bits_spec f n i :
  Z.testbit (pack_bits f n) (Z.of_nat i) = f i && (i <? n)%nat && (i <? 8)%nat.
Proof.
  unfold pack_bits. induction n as [|n IH].
  - simpl. rewrite Z.bits_0, andb_false_r. reflexivity.
  - rewrite seq_S, foldl_app. simpl foldl at 1. cbn [Nat.add].
    set (b := foldl _ 0%Z (seq 0 n)) in *.
    destruct (f n) eqn:Hf.
    + rewrite Z.land_spec, Z.lor_spec, IH, testbit_255, testbit_one_shifted
        by lia.
      destruct (Nat.eqb_spec i n) as [->|Hne].
      * rewrite Hf, Z.eqb_refl, Nat.ltb_irrefl, (proj2 (Nat.ltb_lt n (S n)))
          by lia.
        simpl. destruct (Nat.ltb_spec n 8), (Z.ltb_spec (Z.of_nat n) 8);
          try reflexivity; lia.
      * rewrite (proj2 (Z.eqb_neq _ _)) by lia. rewrite orb_false_r.
        destruct (Nat.ltb_spec i n), (Nat.ltb_spec i (S n)),
          (Nat.ltb_spec i 8), (Z.ltb_spec (Z.of_nat i) 8);
          try lia; rewrite ?andb_true_r, ?andb_false_r; reflexivity.
    + rewrite IH. destruct (Nat.eqb_spec i n) as [->|Hne].
      * rewrite Hf. reflexivity.
      * destruct (Nat.ltb_spec i n), (Nat.ltb_spec i (S n)); try lia;
          reflexivity.
Qed.

Lemma pack_bits_byte f n : (0 <= pack_bits f n < 256)%Z.
Proof.
  unfold pack_bits. induction n as [|n IH].
  - simpl. lia.
  - rewrite seq_S, foldl_app. cbn [foldl Nat.add].
    set (b := foldl _ 0%Z (seq 0 n)) in *.
    destruct (f n); [|exact IH].
    change 255%Z with (Z.ones 8). rewrite Z.land_ones by lia.
    apply Z.mod_pos_bound. lia.
Qed.

(** X10.  The packet [spi_write] builds carries the pins bit by bit: bit [i]
    of enable byte [bi] is set exactly when the enable pin of joint [bi * 8 +
    i] is high (for [i] below the number of joints and below 8), bit [i] of
    output byte [bi] exactly when output pin [bi * 8 + i] is high, and every
    byte fits 8 bits. *)
Theorem spi_write_bit_fields cfg resp s bi i :
  (bi < JOINT_ENABLE_BYTES cfg → 
   ∃ byte, jointEnable (txData (spi_write cfg resp s)) !! bi = Some byte
     ∧ (0 <= byte < 256)%Z
     ∧ Z.testbit byte (Z.of_nat i)
       = bool_decide (joints (data s) !! (bi * 8 + i) ≫= stepperEnable
                      = Some true)
         && (i <? length (joints (data s))) && (i <? 8))%nat
  ∧ (bi < DIGITAL_OUTPUT_BYTES cfg →
     ∃ byte, tx_outputs (txData (spi_write cfg resp s)) !! bi = Some byte
       ∧ (0 <= byte < 256)%Z
       ∧ Z.testbit byte (Z.of_nat i)
         = bool_decide (outputs (data s) !! (bi * 8 + i) = Some true)
           && (i <? 8))%nat.
Proof.
  assert (Htx : ∀ t, txData (if SPIstatus (data s)
                             then spi_transfer resp (set_txData t s)
                             else set_txData t s) = t).
  { intros t. destruct (SPIstatus (data s)); reflexivity. }
  unfold spi_write. rewrite Htx. cbn [jointEnable tx_outputs]. split.
  - intros Hbi. eexists. split.
    + rewrite list_lookup_fmap, lookup_seq_lt by exact Hbi. reflexivity.
    + split; [apply pack_bits_byte|]. apply pack_bits_spec.
  - intros Hbi. eexists. split.
    + rewrite list_lookup_fmap, lookup_seq_lt by exact Hbi. reflexivity.
    + split; [apply pack_bits_byte|].
      rewrite pack_bits_spec. cbn [Nat.add].
      destruct (i <? 8)%nat; rewrite ?andb_true_r, ?andb_false_r; reflexivity.
Qed.

(** ** The input pins *)

Lemma write_pair_ok ins a b m :
  (2 * a + 1 < length ins)%nat →
  pair_ok ins m ∨ m = a →
  pair_ok (<[(2 * a + 1)%nat := negb b]> (<[(2 * a)%nat := b]> ins)) m.
Proof.
  intros Hlen [Hm | ->].
  - destruct (decide (m = a)) as [->|Hne].
    + exists b. split.
      * rewrite list_lookup_insert_ne by lia.
        apply list_lookup_insert_eq. lia.
      * apply list_lookup_insert_eq. rewrite length_insert. lia.
    + destruct Hm as (c & H0 & H1). exists c.
      rewrite !list_lookup_insert_ne by lia. auto.
  - exists b. split.
    + rewrite list_lookup_insert_ne by lia.
      apply list_lookup_insert_eq. lia.
    + apply list_lookup_insert_eq. rewrite length_insert. lia.
Qed.

Lemma write_byte_ok byte bi ks : ∀ ins m,
  (∀ i, i ∈ ks → (bi * 8 + i * 2 + 1 < length ins)%nat) →
  pair_ok ins m ∨ (∃ i, i ∈ ks ∧ m = (bi * 4 + i)%nat) →
  pair_ok (write_byte byte bi ins ks) m
  ∧ length (write_byte byte bi ins ks) = length ins.
Proof.
  induction ks as [|i ks IH]; intros ins m Hlen Hm.
  - simpl. split; [|reflexivity]. destruct Hm as [Hm | (i & Hi & _)]; [exact Hm|].
    inversion Hi.
  - unfold write_byte. cbn [foldl]. fold (write_byte byte bi).
    set (b := Z.testbit byte (Z.of_nat i)).
    replace (bi * 8 + i * 2)%nat with (2 * (bi * 4 + i))%nat by lia.
    set (ins1 := <[_ := negb b]> (<[_ := b]> ins)).
    assert (Hl1 : length ins1 = length ins)
      by (subst ins1; rewrite !length_insert; reflexivity).
    destruct (IH ins1 m) as [Hok Hl].
    + intros k Hk. rewrite Hl1. apply Hlen. right. exact Hk.
    + destruct (decide (m = bi * 4 + i)%nat) as [->|Hne].
      * left. apply write_pair_ok; [|right; reflexivity].
        specialize (Hlen i ltac:(left)). lia.
      * destruct Hm as [Hm | (k & Hk & ->)].
        -- left. apply write_pair_ok; [|left; exact Hm].
           specialize (Hlen i ltac:(left)). lia.
        -- right. exists k. split; [|reflexivity].
           apply elem_of_cons in Hk as [->|Hk]; [lia | exact Hk].
    + change (foldl _ ins1 ks) with (write_byte byte bi ins1 ks).
      split; [exact Hok | congruence].
Qed.

Lemma unpack_inputs_ok_gen (rxin : list Z) bis : ∀ ins m,
  (∀ bi, bi ∈ bis → (bi * 8 + 16 <= length ins)%nat) →
  pair_ok ins m ∨ (∃ bi i, bi ∈ bis ∧ (i < 8)%nat ∧ m = (bi * 4 + i)%nat) →
  let out :=
    foldl (λ ins bi, write_byte (default 0%Z (rxin !! bi)) bi ins (seq 0 8))
          ins bis in
  pair_ok out m ∧ length out = length ins.
Proof.
  induction bis as [|bi bis IH]; intros ins m Hlen Hm; cbn [foldl].
  - split; [|reflexivity].
    destruct Hm as [Hm | (bi & _ & Hbi & _)]; [exact Hm | inversion Hbi].
  - set (ins1 := write_byte _ bi ins (seq 0 8)).
    assert (H1 : ∀ m', pair_ok ins m' ∨ (∃ i, i ∈ seq 0 8 ∧ m' = (bi * 4 + i)%nat) →
                 pair_ok ins1 m' ∧ length ins1 = length ins).
    { intros m'. apply write_byte_ok. intros i Hi.
      apply elem_of_seq in Hi. specialize (Hlen bi ltac:(left)). lia. }
    assert (Hl1 : length ins1 = length ins).
    { apply (H1 (bi * 4)%nat). right. exists 0%nat. split; [|lia].
      apply elem_of_seq. lia. }
    destruct (IH ins1 m) as [Hok Hl].
    + intros k Hk. rewrite Hl1. apply Hlen. right. exact Hk.
    + destruct Hm as [Hm | (k & i & Hk & Hi & ->)].
      * left. apply H1. left. exact Hm.
      * apply elem_of_cons in Hk as [->|Hk].
        -- left. apply H1. right. exists i. split; [|reflexivity].
           apply elem_of_seq. lia.
        -- right. exists k, i. auto.
    + split; [exact Hok | congruence].
Qed.

Lemma unpack_inputs_fold cfg rxin ins :
  unpack_inputs cfg rxin ins
  = foldl (λ ins bi, write_byte (default 0%Z (rxin !! bi)) bi ins (seq 0 8))
          ins (seq 0 (DIGITAL_INPUT_BYTES cfg)).
Proof. reflexivity. Qed.

Lemma unpack_inputs_pairs cfg rxin ins m :
  (DIGITAL_INPUT_BYTES cfg * 8 + 8 <= length ins)%nat →
  (m < DIGITAL_INPUT_BYTES cfg * 4 + 4)%nat →
  (0 < DIGITAL_INPUT_BYTES cfg)%nat →
  pair_ok (unpack_inputs cfg rxin ins) m
  ∧ length (unpack_inputs cfg rxin ins) = length ins.
Proof.
  intros Hlen Hm Hn. rewrite unpack_inputs_fold.
  apply unpack_inputs_ok_gen.
  - intros bi Hbi. apply elem_of_seq in Hbi. lia.
  - right. 
    destruct (decide (m < 8)%nat).
    + exists 0%nat, m. split; [apply elem_of_seq; lia|]. lia.
    + exists ((m - 4) / 4)%nat, (m - ((m - 4) / 4) * 4)%nat.
      pose proof (Nat.div_mod_eq (m - 4) 4).
      pose proof (Nat.mod_upper_bound (m - 4) 4 ltac:(lia)).
      split; [apply elem_of_seq; lia|]. lia.
Qed.

Lemma unpack_inputs_length cfg rxin ins :
  length (unpack_inputs cfg rxin ins) = length ins.
Proof.
  rewrite unpack_inputs_fold.
  generalize (seq 0 (DIGITAL_INPUT_BYTES cfg)). intros bis. revert ins.
  induction bis as [|bi bis IH]; intros ins; cbn [foldl]; [reflexivity|].
  rewrite IH. unfold write_byte. generalize (seq 0 8). intros ks. revert ins.
  induction ks as [|i ks IHi]; intros ins; cbn [foldl]; [reflexivity|].
  rewrite IHi, !length_insert. reflexivity.
Qed.

Lemma write_byte_values byte bi ks : ∀ ins i,
  NoDup ks → i ∈ ks →
  (∀ k, k ∈ ks → (bi * 8 + k * 2 + 1 < length ins)%nat) →
  write_byte byte bi ins ks !! (bi * 8 + i * 2)%nat
  = Some (Z.testbit byte (Z.of_nat i)).
Proof.
  induction ks as [|k ks IH]; intros ins i Hnd Hi Hlen; [inversion Hi|].
  unfold write_byte. cbn [foldl]. 
  set (b := Z.testbit byte (Z.of_nat k)).
  set (ins1 := <[_ := negb b]> (<[_ := b]> ins)).
  change (foldl _ ins1 ks) with (write_byte byte bi ins1 ks).
  assert (Hl1 : length ins1 = length ins)
    by (subst ins1; rewrite !length_insert; reflexivity).
  apply NoDup_cons in Hnd as [Hk Hnd].
  destruct (decide (i ∈ ks)) as [Hin|Hnin].
  - apply IH; auto. intros k' Hk'. rewrite Hl1. apply Hlen. right. exact Hk'.
  - apply elem_of_cons in Hi as [->|Hi]; [|contradiction].
    assert (Hkeep : ∀ (l : list bool) x,
              k ∉ ks → l !! (bi * 8 + k * 2)%nat = Some x →
              write_byte byte bi l ks !! (bi * 8 + k * 2)%nat = Some x).
    { clear. induction ks as [|k' ks IH]; intros l x Hk Hl; [exact Hl|].
      unfold write_byte. cbn [foldl].
      change (foldl _ ?a ks) with (write_byte byte bi a ks).
      apply not_elem_of_cons in Hk as [Hne Hk].
      apply IH; [exact Hk|]. rewrite !list_lookup_insert_ne by lia. exact Hl. }
    apply Hkeep; [exact Hk|]. subst ins1.
    rewrite list_lookup_insert_ne by lia. apply list_lookup_insert_eq.
    specialize (Hlen k ltac:(left)). lia.
Qed.

Lemma exec_inputs cfg c s :
  inputs (data (exec cfg c s)) = inputs (data s)
  ∨ ∃ rxin, inputs (data (exec cfg c s))
            = unpack_inputs cfg rxin (inputs (data s)).
Proof.
  destruct c; cbn [exec].
  - left. reflexivity.
  - left. unfold update_freq. destruct (negb _); reflexivity.
  - left. unfold spi_write. destruct (SPIstatus (data s)); reflexivity.
  - unfold spi_read. cbn [data set_txData].
    destruct (SPIenable (data s)); [|left; reflexivity].
    destruct (attempt (data s)); [|left; reflexivity].
    cbn [spi_transfer rxData rx_header].
    destruct (rx_header resp =? PRU_DATA cfg)%Z.
    + right. exists (rx_inputs resp). reflexivity.
    + left. destruct (rx_header resp =? PRU_ESTOP cfg)%Z; reflexivity.
Qed.

(** X11.  In every reachable state each input pin and its inverted twin are
    complementary, from start-up on and after every exchange: pin [2 m + 1]
    holds the negation of pin [2 m], for all the pairs the component writes. *)
Theorem input_pins_complementary cfg ctrl s m :
  reachable cfg ctrl s →
  (0 < DIGITAL_INPUT_BYTES cfg)%nat →
  (m < DIGITAL_INPUT_BYTES cfg * 4 + 4)%nat →
  ∃ b, inputs (data s) !! (2 * m)%nat = Some b
       ∧ inputs (data s) !! (2 * m + 1)%nat = Some (negb b).
Proof.
  intros [cs ->] Hn Hm.
  assert (Hinv : pair_ok (inputs (data (run cfg cs (init cfg ctrl)))) m
                 ∧ length (inputs (data (run cfg cs (init cfg ctrl))))
                   = (DIGITAL_INPUT_BYTES cfg * 8 * 2)%nat);
    [|exact (proj1 Hinv)].
  induction cs as [|c cs IH] using rev_ind.
  - simpl. rewrite <- (length_replicate (DIGITAL_INPUT_BYTES cfg * 8 * 2) false)
      at 3.
    apply unpack_inputs_pairs; [rewrite length_replicate; lia | lia | lia].
  - rewrite run_app. cbn [run foldl]. destruct IH as [IH Hl].
    destruct (exec_inputs cfg c (run cfg cs (init cfg ctrl))) as [-> | [rx ->]].
    + split; assumption.
    + destruct (unpack_inputs_pairs cfg rx
                  (inputs (data (run cfg cs (init cfg ctrl)))) m) as [H1 H2];
        [lia | lia | lia |].
      split; [exact H1 | rewrite H2; exact Hl].
Qed.

(** X12.  After a valid exchange the pins of the last input byte show its
    bits: pin [(n - 1) * 8 + 2 i] is bit [i] of byte [n - 1], where [n] is the
    number of input bytes. *)
Theorem spi_read_last_input_byte cfg resp s i :
  SPIenable (data s) = true →
  attempt (data s) = true →
  rx_header resp = PRU_DATA cfg →
  (0 < DIGITAL_INPUT_BYTES cfg)%nat →
  (DIGITAL_INPUT_BYTES cfg * 8 + 8 <= length (inputs (data s)))%nat →
  (i < 8)%nat →
  inputs (data (spi_read cfg resp s))
    !! ((DIGITAL_INPUT_BYTES cfg - 1) * 8 + i * 2)%nat
  = Some (Z.testbit
            (default 0%Z (rx_inputs resp !! (DIGITAL_INPUT_BYTES cfg - 1)%nat))
            (Z.of_nat i)).
Proof.
  intros Hen Hat Hh Hn Hlen Hi.
  assert (Hin : inputs (data (spi_read cfg resp s))
                = unpack_inputs cfg (rx_inputs resp) (inputs (data s))).
  { unfold spi_read. cbn [data set_txData]. rewrite Hen, Hat.
    cbn [spi_transfer rxData rx_header]. rewrite Hh, Z.eqb_refl. reflexivity. }
  rewrite Hin, unpack_inputs_fold.
  destruct (DIGITAL_INPUT_BYTES cfg) as [|n] eqn:En; [lia|].
  rewrite (seq_S n 0), foldl_app. cbn [foldl Nat.add].
  replace (S n - 1)%nat with n by lia.
  set (ins1 := foldl _ (inputs (data s)) (seq 0 n)).
  assert (Hl1 : length ins1 = length (inputs (data s))).
  { subst ins1. clear. generalize (seq 0 n). intros bis.
    generalize (inputs (data s)). 
    induction bis as [|bi bis IH]; intros ins; cbn [foldl]; [reflexivity|].
    rewrite IH. unfold write_byte. generalize (seq 0 8). intros ks. revert ins.
    induction ks as [|k ks IHk]; intros ins; cbn [foldl]; [reflexivity|].
    rewrite IHk, !length_insert. reflexivity. }
  apply write_byte_values.
  - apply NoDup_seq.
  - apply elem_of_seq. lia.
  - intros k Hk. apply elem_of_seq in Hk. lia.
Qed.

(** ** The link over several calls *)

Lemma exec_bus cfg c s :
  bus (exec cfg c s) = bus s
  ∨ ∃ t, bus (exec cfg c s) = t :: bus s
         ∧ (tx_header t = PRU_WRITE cfg ∨ tx_header t = PRU_READ cfg).
Proof.
  destruct c; cbn [exec].
  - left. reflexivity.
  - left. unfold update_freq. destruct (negb _); reflexivity.
  - unfold spi_write. destruct (SPIstatus (data s)); [|left; reflexivity].
    right. eexists. split; [reflexivity|]. left. reflexivity.
  - rewrite spi_read_bus.
    destruct (SPIenable (data s) && attempt (data s)); [|left; reflexivity].
    right. eexists. split; [reflexivity|]. right. reflexivity.
Qed.

(** X13.  Every packet the component has sent carries the write tag or the
    read tag: [spi_write] and [spi_read] set the header before they transfer. *)
Theorem bus_headers cfg ctrl s :
  reachable cfg ctrl s →
  Forall (λ t, tx_header t = PRU_WRITE cfg ∨ tx_header t = PRU_READ cfg)
         (bus s).
Proof.
  intros [cs ->]. induction cs as [|c cs IH] using rev_ind.
  - constructor.
  - rewrite run_app. cbn [run foldl].
    destruct (exec_bus cfg c (run cfg cs (init cfg ctrl)))
      as [-> | (t & -> & Ht)]; [exact IH | constructor; assumption].
Qed.

(** X14.  Recovery: whatever the link went through, once a call of [spi_read]
    has seen the reset pin low, the host raising reset with the link enabled
    makes the next [spi_read] attempt an exchange, and a valid answer brings
    the status up. *)
Theorem reset_pulse_recovers cfg s h resp1 resp2 :
  SPIreset (data s) = false →
  in_SPIenable h = true →
  in_SPIreset h = true →
  let s' := spi_read cfg resp2 (host_write h (spi_read cfg resp1 s)) in
  bus s' = set_tx_header (PRU_READ cfg) (txData (spi_read cfg resp1 s))
             :: bus (spi_read cfg resp1 s)
  ∧ SPIstatus (data s') = (rx_header resp2 =? PRU_DATA cfg)%Z.
Proof.
  intros Hr He Hs s'. subst s'.
  pose proof (spi_read_resetOld cfg resp1 s) as Hold. rewrite Hr in Hold.
  rewrite spi_read_bus, spi_read_status.
  unfold attempt, rising_edge. cbn [host_write set_data data SPIenable SPIreset
    SPIresetOld SPIstatus]. rewrite He, Hs, Hold. simpl. auto.
Qed.

Lemma feedback_host_write h s : feedback_of (host_write h s) = feedback_of s.
Proof.
  unfold feedback_of. cbn [host_write set_data data joints].
  generalize (in_joints h). generalize (joints (data s)). clear.
  intros js; induction js as [|j js IH] using rev_ind; intros ins;
    [reflexivity|].
  rewrite imap_app, !fmap_app, IH. f_equal. simpl.
  destruct (ins !! (length js + 0)%nat); reflexivity.
Qed.

Lemma feedback_update_freq cfg period s :
  feedback_of (update_freq cfg period s) = feedback_of s.
Proof.
  unfold feedback_of, update_freq. fold (tick_state period s).
  cbn [set_data data set_joints joints]. rewrite tick_state_joints.
  rewrite <- list_fmap_compose. apply list_fmap_ext. intros _ j _. simpl.
  unfold_update_joint. reflexivity.
Qed.

Lemma exec_quiet_feedback cfg c s :
  SPIstatus (data s) = false →
  (is_read c = true → rising_edge (data s) = false) →
  feedback_of (exec cfg c s) = feedback_of s.
Proof.
  intros Hst Hedge. destruct c; cbn [exec is_read] in *.
  - apply feedback_host_write.
  - apply feedback_update_freq.
  - unfold spi_write. rewrite Hst. reflexivity.
  - unfold spi_read, attempt. cbn [data set_txData].
    rewrite Hst, (Hedge eq_refl).
    destruct (SPIenable (data s)); reflexivity.
Qed.

(** X15.  While the link is down the feedback is frozen: from a state with the
    status low, a run of calls in which no [spi_read] finds a rising edge of
    reset changes no position feedback, count pin, accumulator or stored
    counter, whatever the host writes and however often [update_freq] runs. *)
Theorem link_down_freezes_feedback cfg cs s :
  SPIstatus (data s) = false →
  no_edge cfg cs s →
  feedback_of (run cfg cs s) = feedback_of s.
Proof.
  revert s. induction cs as [|c cs IH]; intros s Hst Hq; [reflexivity|].
  destruct Hq as [Hedge Hq]. cbn [run foldl].
  destruct (exec_quiet cfg c s Hst Hedge) as [_ Hst'].
  change (foldl _ (exec cfg c s) cs) with (run cfg cs (exec cfg c s)).
  rewrite (IH _ Hst' Hq). apply exec_quiet_feedback; assumption.
Qed.

(** ** The feedback decoder *)

Lemma int32_accum_step a f o :
  int32 a = o → (-2147483648 <= f < 2147483648)%Z →
  int32 (int64 (a + int32 (f - o))) = f.
Proof. intros <- Hf. wrap_arith. Qed.

Lemma read_joint_fb_range cfg i raw j :
  (-2147483648 <= snd (read_joint cfg i raw j) < 2147483648)%Z.
Proof.
  unfold read_joint. destruct (joints_fb_type cfg !!! i); simpl;
    apply int32_range.
Qed.

Lemma read_joint_count_ok cfg i raw j :
  count_ok j → count_ok (fst (read_joint cfg i raw j)).
Proof.
  intros [Hc Ha]. unfold read_joint, count_ok.
  destruct (joints_fb_type cfg !!! i); cbn [fst count accum old_count].
  - auto.
  - rewrite int32_accum_step by (assumption || apply int32_range). auto.
Qed.

Lemma update_joint_count_ok cfg pr d rd e0 j :
  count_ok j → count_ok (fst (update_joint cfg pr d rd e0 j)).
Proof. intros [? ?]. unfold_update_joint. split; simpl; auto. Qed.

Lemma host_joint_count_ok x j : count_ok j → count_ok (host_joint x j).
Proof. intros [? ?]. split; simpl; auto. Qed.

Lemma exec_count_ok cfg c s :
  Forall count_ok (joints (data s)) →
  Forall count_ok (joints (data (exec cfg c s))).
Proof.
  intros Hall. destruct c; cbn [exec].
  - cbn [host_write set_data data joints]. apply Forall_imap_same; auto.
    intros i j Hok. destruct (in_joints h !! i); simpl;
      auto using host_joint_count_ok.
  - unfold update_freq. fold (tick_state period s).
    cbn [set_data data set_joints joints]. rewrite tick_state_joints.
    apply Forall_fmap. eapply Forall_impl; [exact Hall|].
    intros j Hok. apply update_joint_count_ok, Hok.
  - unfold spi_write. destruct (SPIstatus (data s)); exact Hall.
  - unfold spi_read. cbn [data set_txData].
    destruct (SPIenable (data s)); [|exact Hall].
    destruct (attempt (data s)); [|exact Hall].
    cbn [spi_transfer rxData rx_header].
    destruct (rx_header resp =? PRU_DATA cfg)%Z.
    + cbn. apply Forall_imap_same; auto.
      intros i j Hok. apply read_joint_count_ok, Hok.
    + destruct (rx_header resp =? PRU_ESTOP cfg)%Z; exact Hall.
Qed.

(** X16.  In every reachable state the count pin of a joint shows the counter
    value stored at the last exchange, which is also the accumulator reduced
    to 32 bits: the pin follows the 32-bit counter of the board, wrap-around
    included, and only the accumulator carries the full distance. *)
Theorem count_pin_is_last_counter cfg ctrl s i j :
  reachable cfg ctrl s →
  joints (data s) !! i = Some j →
  count j = old_count j ∧ int32 (accum j) = old_count j.
Proof.
  intros [cs ->] Hj.
  assert (Hall : Forall count_ok (joints (data (run cfg cs (init cfg ctrl))))).
  { clear Hj. induction cs as [|c cs IH] using rev_ind.
    - simpl. apply Forall_fmap, Forall_forall. intros k _. split; reflexivity.
    - rewrite run_app. cbn [run foldl]. apply exec_count_ok, IH. }
  rewrite Forall_lookup in Hall. exact (Hall i j Hj).
Qed.

Lemma read_joint_again cfg i raw j :
  fst (read_joint cfg i raw (fst (read_joint cfg i raw j)))
  = fst (read_joint cfg i raw j).
Proof.
  unfold read_joint. destruct (joints_fb_type cfg !!! i);
    cbn [fst pos_scale old_count accum]; [reflexivity|].
  set (fb := int32 (trunc (inject_Z raw / joints_fb_scale cfg !!! i))).
  replace (int32 (fb - fb)) with 0%Z by (rewrite Z.sub_diag; reflexivity).
  set (a := int64 (accum j + int32 (fb - old_count j))).
  replace (int64 (a + 0)) with a; [reflexivity|].
  subst a. wrap_arith.
Qed.

Lemma imap_again {A} (f : nat → A → A) (l : list A) :
  (∀ i x, f i (f i x) = f i x) → imap f (imap f l) = imap f l.
Proof.
  intros Hf. revert f Hf. induction l as [|x l IH]; intros f Hf; simpl;
    [reflexivity|].
  rewrite Hf. f_equal. apply IH. intros i y. apply Hf.
Qed.

(** X17.  An exchange that returns the same counters and process values again
    changes nothing: every joint (accumulator, count and position included)
    and every process variable stay as the first exchange left them. *)
Theorem spi_read_same_answer_again cfg resp s :
  SPIenable (data s) = true →
  attempt (data s) = true →
  rx_header resp = PRU_DATA cfg →
  joints (data (spi_read cfg resp (spi_read cfg resp s)))
    = joints (data (spi_read cfg resp s))
  ∧ processVariable (data (spi_read cfg resp (spi_read cfg resp s)))
    = processVariable (data (spi_read cfg resp s))
  ∧ SPIstatus (data (spi_read cfg resp (spi_read cfg resp s))) = true.
Proof.
  intros Hen Hat Hh.
  assert (Hdec : ∀ s0, SPIenable (data s0) = true → attempt (data s0) = true →
            joints (data (spi_read cfg resp s0))
            = imap (λ i j, fst (read_joint cfg i
                                  (default 0%Z (jointFeedback resp !! i)) j))
                   (joints (data s0))
            ∧ processVariable (data (spi_read cfg resp s0))
              = imap (λ i v, default v (inject_Z <$> rx_processVariable resp !! i))
                     (processVariable (data s0))
            ∧ SPIstatus (data (spi_read cfg resp s0)) = true
            ∧ SPIenable (data (spi_read cfg resp s0)) = true).
  { intros s0 He Ha. unfold spi_read. cbn [data set_txData].
    rewrite He, Ha. cbn [spi_transfer rxData rx_header].
    rewrite Hh, Z.eqb_refl. cbn. rewrite He. auto. }
  destruct (Hdec s Hen Hat) as (Hj1 & Hp1 & Hs1 & He1).
  destruct (Hdec (spi_read cfg resp s) He1) as (Hj2 & Hp2 & Hs2 & _).
  { unfold attempt. rewrite Hs1. apply orb_true_r. }
  rewrite Hj2, Hp2, Hj1, Hp1. split; [|split; [|exact Hs2]].
  - apply imap_again. intros i j. apply read_joint_again.
  - apply imap_again. intros i v.
    destruct (rx_processVariable resp !! i); reflexivity.
Qed.

(** ** The set points *)

(** X18.  The linear output law maps the lower end of its range to 0 and the
    upper end to the largest positive word, and it has no value when the two
    ends coincide (the quotient divides by zero). *)
Theorem encode_setPoint_linear cfg i :
  vout_type cfg !!! i = VOUT_TYPE_OTHER →
  (vout_max cfg !!! i == vout_min cfg !!! i →
   ∀ sp, encode_setPoint cfg i sp = None)
  ∧ (¬ vout_max cfg !!! i == vout_min cfg !!! i →
     encode_setPoint cfg i (vout_min cfg !!! i) = Some 0%Z
     ∧ encode_setPoint cfg i (vout_max cfg !!! i) = Some 2147483647%Z).
Proof.
  intros Ht. unfold encode_setPoint. rewrite Ht.
  set (lo := vout_min cfg !!! i). set (hi := vout_max cfg !!! i).
  split.
  - intros He sp. rewrite fdiv_zero by lra. reflexivity.
  - intros Hne. unfold fdiv.
    assert (Hz : Qeq_bool (hi - lo) 0 = false).
    { apply not_true_iff_false. rewrite Qeq_bool_iff. lra. }
    rewrite Hz. cbn [to_int32]. split.
    + rewrite (trunc_inject _ 0); [reflexivity|]. field. lra.
    + rewrite (trunc_inject _ 2147483647); [reflexivity|].
      change (inject_Z (4294967295 / 2)) with (inject_Z 2147483647).
      field. lra.
Qed.

(** ** The frequency ratio at rest *)

(** X19.  Whenever the stored frequency of a joint is 0, [spi_write] divides
    [PRU_OSC] by it unguarded: the divisor is 0 and the ratio it stores is
    undefined.  The initial state is such a state, for every joint. *)
Theorem zero_frequency_zero_divisor cfg ctrl :
  (∀ resp s i j,
     joints (data s) !! i = Some j → freq j == 0 →
     fdiv (float32 (PRU_OSC cfg)) (freq j) = None
     ∧ jointFreqCmd (txData (spi_write cfg resp s)) !! i = Some None)
  ∧ reachable cfg ctrl (init cfg ctrl)
  ∧ (∀ i, (i < JOINTS cfg)%nat →
       ∃ j, joints (data (init cfg ctrl)) !! i = Some j ∧ freq j == 0).
Proof.
  split; [|split].
  - intros resp s i j Hj Hf. split; [apply fdiv_zero, Hf|].
    rewrite spi_write_jointFreqCmd, list_lookup_fmap, Hj. simpl.
    rewrite (fdiv_zero _ _ Hf). reflexivity.
  - apply reachable_init.
  - intros i Hi. exists (init_joint (default true (ctrl !! i))).
    split; [|reflexivity]. simpl.
    rewrite list_lookup_fmap, lookup_seq_lt by exact Hi. reflexivity.
Qed.

(** ** Instances *)

Lemma ctrl_type_decides_startup_witness :
  rtapi_app_main board1 calls_succeed
    [Some (String.String "x"%char String.EmptyString)] = None
  ∧ rtapi_app_main board1 spi_begin_fails
      [Some (String.String "v"%char String.EmptyString)] = None
  ∧ (rtapi_app_main board1 calls_succeed
       [Some (String.String "v"%char String.EmptyString)]
     = Some (init board1 [false]) →
     length (joints (data (init board1 [false]))) = JOINTS board1).
Proof.
  split; [|split].
  - apply (proj1 (ctrl_type_decides_startup board1 calls_succeed _)).
    left. exists 0%nat, "x"%char, String.EmptyString.
    repeat split; try discriminate. simpl. lia.
  - apply (proj1 (ctrl_type_decides_startup board1 spi_begin_fails _)).
    right. right. right. right. left. reflexivity.
  - intros H.
    apply (proj2 (ctrl_type_decides_startup board1 calls_succeed _) _ H).
Defined.

Lemma read_dt_ranges_round_trip_witness :
  (1056964608%Z ≠ 0%Z →
   read_dt_ranges bcm_bases [] 
     (Some ([126; 0; 0; 0]%Z ++ be_bytes 1056964608 ++ be_bytes 16777216
              ++ [])) 
     {| bcm2835_peripherals_base := 536870912;
        bcm2835_peripherals_size := 16777216; pud_type_rpi4 := false |}
   = {| bcm2835_peripherals_base := 1056964608;
        bcm2835_peripherals_size := 16777216;
        pud_type_rpi4 :=
          (1056964608 =? BCM2835_RPI4_PERI_BASE bcm_bases)%Z
          || pud_type_rpi4
               {| bcm2835_peripherals_base := 536870912;
                  bcm2835_peripherals_size := 16777216;
                  pud_type_rpi4 := false |} |})
  ∧ read_dt_ranges bcm_bases []
      (Some ([126; 0; 0; 0; 0; 0; 0; 0]%Z ++ be_bytes 1056964608
               ++ be_bytes 16777216 ++ []))
      {| bcm2835_peripherals_base := 536870912;
         bcm2835_peripherals_size := 16777216; pud_type_rpi4 := false |}
    = {| bcm2835_peripherals_base := 1056964608;
         bcm2835_peripherals_size := 16777216;
         pud_type_rpi4 :=
           (1056964608 =? BCM2835_RPI4_PERI_BASE bcm_bases)%Z
           || pud_type_rpi4
                {| bcm2835_peripherals_base := 536870912;
                   bcm2835_peripherals_size := 16777216;
                   pud_type_rpi4 := false |} |}.
Proof.
  apply (read_dt_ranges_round_trip bcm_bases []
           {| bcm2835_peripherals_base := 536870912;
              bcm2835_peripherals_size := 16777216; pud_type_rpi4 := false |}
           1056964608 16777216 []).
  - lia.
  - lia.
  - right. left. reflexivity.
Defined.

Lemma update_freq_limits_witness :
  ∃ l, update_freq_locals board1 1000000 (init board1 [true]) 0 = Some l
       ∧ 0 <= max_freq l ∧ max_freq l <= PRU_BASEFREQ board1 / 2
       ∧ 0 <= max_ac l
       ∧ 0 <= dv l ∧ dv l <= max_freq l.
Proof.
  apply (update_freq_limits board1 [true] 1000000 (init board1 [true]) 0
           (init_joint true)).
  - exists []. reflexivity.
  - reflexivity.
  - discriminate.
  - reflexivity.
Defined.


Lemma update_freq_parameters_settle_witness :
  ∃ j1 j2,
    joints (data (update_freq board1 1000000 (init board1 [true]))) !! 0%nat
      = Some j1
    ∧ joints (data (update_freq board1 1000000
                      (update_freq board1 1000000 (init board1 [true]))))
        !! 0%nat = Some j2
    ∧ pos_scale j2 = pos_scale j1
    ∧ maxvel j2 == maxvel j1
    ∧ maxaccel j2 == maxaccel j1.
Proof.
  apply (update_freq_parameters_settle board1 [true] 1000000
           (init board1 [true]) 0 (init_joint true)).
  - exists []. reflexivity.
  - reflexivity.
  - discriminate.
  - reflexivity.
Defined.



Lemma update_freq_period_constants_witness :
  old_dtns (update_freq board1 1000000 link_active) = 1000000%Z
  ∧ dt (update_freq board1 1000000 link_active)
    == inject_Z 1000000 * 0.000000001
  ∧ recip_dt (update_freq board1 1000000 link_active)
    == 1 / (inject_Z 1000000 * 0.000000001).
Proof.
  apply (update_freq_period_constants board1 [true] 1000000 link_active).
  eexists. reflexivity.
Defined.

Lemma spi_write_bit_fields_witness :
  ∃ byte,
    jointEnable (txData (spi_write board1 (answer 0 0) link_active)) !! 0%nat
      = Some byte
    ∧ (0 <= byte < 256)%Z
    ∧ Z.testbit byte (Z.of_nat 0)
      = bool_decide (joints (data link_active) !! (0 * 8 + 0)%nat
                       ≫= stepperEnable = Some true)
        && (0 <? length (joints (data link_active)))%nat && (0 <? 8)%nat.
Proof.
  apply (proj1 (spi_write_bit_fields board1 (answer 0 0) link_active 0 0)).
  simpl. lia.
Defined.

Lemma input_pins_complementary_witness :
  ∃ b, inputs (data link_active) !! (2 * 3)%nat = Some b
       ∧ inputs (data link_active) !! (2 * 3 + 1)%nat = Some (negb b).
Proof.
  apply (input_pins_complementary board1 [true] link_active 3).
  - eexists. reflexivity.
  - simpl. lia.
  - simpl. lia.
Defined.

Lemma spi_read_last_input_byte_witness :
  inputs (data (spi_read board1 (answer (PRU_DATA board1) 7) link_armed))
    !! ((DIGITAL_INPUT_BYTES board1 - 1) * 8 + 2 * 2)%nat
  = Some (Z.testbit
            (default 0%Z
               (rx_inputs (answer (PRU_DATA board1) 7)
                  !! (DIGITAL_INPUT_BYTES board1 - 1)%nat))
            (Z.of_nat 2)).
Proof.
  apply (spi_read_last_input_byte board1 (answer (PRU_DATA board1) 7)
           link_armed 2).
  - reflexivity.
  - reflexivity.
  - reflexivity.
  - simpl. lia.
  - simpl. lia.
  - lia.
Defined.

Lemma bus_headers_witness :
  Forall (λ t, tx_header t = PRU_WRITE board1 ∨ tx_header t = PRU_READ board1)
         (bus link_active).
Proof.
  apply (bus_headers board1 [true] link_active). eexists. reflexivity.
Defined.

Lemma reset_pulse_recovers_witness :
  let s' := spi_read board1 (answer (PRU_DATA board1) 7)
              (host_write link_up
                 (spi_read board1 (answer 0 0) (init board1 [true]))) in
  bus s'
  = set_tx_header (PRU_READ board1)
      (txData (spi_read board1 (answer 0 0) (init board1 [true])))
    :: bus (spi_read board1 (answer 0 0) (init board1 [true]))
  ∧ SPIstatus (data s')
    = (rx_header (answer (PRU_DATA board1) 7) =? PRU_DATA board1)%Z.
Proof.
  apply (reset_pulse_recovers board1 (init board1 [true]) link_up
           (answer 0 0) (answer (PRU_DATA board1) 7)); reflexivity.
Defined.

Lemma link_down_freezes_feedback_witness :
  feedback_of (run board1 [Host (host1 position_step); Update_freq 1000000;
                           Spi_write (answer 0 7);
                           Spi_read (answer (PRU_DATA board1) 9)] link_fault)
  = feedback_of link_fault.
Proof.
  apply (link_down_freezes_feedback board1
           [Host (host1 position_step); Update_freq 1000000;
            Spi_write (answer 0 7); Spi_read (answer (PRU_DATA board1) 9)]
           link_fault).
  - reflexivity.
  - simpl. repeat split; intros; try reflexivity; discriminate.
Defined.

Lemma count_pin_is_last_counter_witness :
  ∃ j, joints (data link_active) !! 0%nat = Some j
       ∧ count j = old_count j ∧ int32 (accum j) = old_count j.
Proof.
  eexists. split; [vm_compute; reflexivity|].
  eapply (count_pin_is_last_counter board1 [true] link_active 0).
  - eexists. reflexivity.
  - vm_compute. reflexivity.
Defined.

Lemma spi_read_same_answer_again_witness :
  joints (data (spi_read board1 (answer (PRU_DATA board1) 7)
                  (spi_read board1 (answer (PRU_DATA board1) 7) link_armed)))
    = joints (data (spi_read board1 (answer (PRU_DATA board1) 7) link_armed))
  ∧ processVariable
      (data (spi_read board1 (answer (PRU_DATA board1) 7)
               (spi_read board1 (answer (PRU_DATA board1) 7) link_armed)))
    = processVariable
        (data (spi_read board1 (answer (PRU_DATA board1) 7) link_armed))
  ∧ SPIstatus
      (data (spi_read board1 (answer (PRU_DATA board1) 7)
               (spi_read board1 (answer (PRU_DATA board1) 7) link_armed)))
    = true.
Proof.
  apply (spi_read_same_answer_again board1 (answer (PRU_DATA board1) 7)
           link_armed); reflexivity.
Defined.

Lemma encode_setPoint_linear_witness :
  (vout_max board_linear !!! 0%nat == vout_min board_linear !!! 0%nat →
   ∀ sp, encode_setPoint board_linear 0 sp = None)
  ∧ (¬ vout_max board_linear !!! 0%nat == vout_min board_linear !!! 0%nat →
     encode_setPoint board_linear 0 (vout_min board_linear !!! 0%nat)
       = Some 0%Z
     ∧ encode_setPoint board_linear 0 (vout_max board_linear !!! 0%nat)
       = Some 2147483647%Z).
Proof.
  apply (encode_setPoint_linear board_linear 0). reflexivity.
Defined.

Lemma zero_frequency_zero_divisor_witness :
  fdiv (float32 (PRU_OSC board1)) (freq (init_joint true)) = None
  ∧ jointFreqCmd (txData (spi_write board1 (answer 0 0) (init board1 [true])))
      !! 0%nat = Some None.
Proof.
  apply (proj1 (zero_frequency_zero_divisor board1 [true]) (answer 0 0)
           (init board1 [true]) 0%nat (init_joint true)).
  - reflexivity.
  - reflexivity.
Defined.

